(** * MCP inspector proxy: header projection, auth gate, origin guard,
      stderr classifier and session tables

    A shallow embedding of the Express proxy of [server/src] (the module that
    declares [getHttpHeaders], [updateHeadersInPlace], the two middlewares,
    the three session tables and the routes), with the properties its
    specification states about it, followed by further properties of the
    same code: transport creation and the requests of a session, the log
    readers and their pagination, the target of [GET /fetch-json] and the
    list of log files.

    Conventions of the embedding.
    - A JavaScript string is a Rocq [string]; its characters are code units
      below 256 (what Node hands out for header text, and ASCII for child
      process output).  Case mapping and trimming act on the ASCII range.
    - A JavaScript object used as a dictionary ([Record<string, string>],
      [req.headers]) and a [Map] are [gmap]s keyed by strings; a lookup
      finds own properties only, so the two lower-case names that a
      JavaScript lookup also finds on [Object.prototype], [constructor] and
      [__proto__], are outside the model.
    - A number is an integer that a double holds exactly; the arithmetic of
      the log readers is that of the code within the safe integer range.
    - A handler is a function from the request and the state it reads to the
      state it leaves, the calls it makes on transports and the response. *)

From Stdlib Require Import Ascii String NArith List.
From stdpp Require Import gmap strings list fin_maps sorting.

Local Open Scope string_scope.

(** ** JavaScript string primitives *)

Module JS.

(** [c] is one of [A-Z]. *)
Definition is_upper (c : ascii) : bool :=
  let n := N_of_ascii c in ((65 <=? n) && (n <=? 90))%N.

(** [c] is one of [a-z]. *)
Definition is_lower (c : ascii) : bool :=
  let n := N_of_ascii c in ((97 <=? n) && (n <=? 122))%N.

Definition lower_char (c : ascii) : ascii :=
  if is_upper c then ascii_of_N (N_of_ascii c + 32) else c.

Definition upper_char (c : ascii) : ascii :=
  if is_lower c then ascii_of_N (N_of_ascii c - 32) else c.

Fixpoint map_chars (f : ascii → ascii) (s : string) : string :=
  match s with
  | EmptyString => EmptyString
  | String c s' => String (f c) (map_chars f s')
  end.

(** [s.toLowerCase()] *)
Definition toLowerCase : string → string := map_chars lower_char.

(** [s.toUpperCase()] *)
Definition toUpperCase : string → string := map_chars upper_char.

(** [s.startsWith(p)] *)
Definition startsWith (s p : string) : bool := String.prefix p s.

(** [s.includes(p)]: [p] occurs at some position of [s]. *)
Fixpoint includes (s p : string) : bool :=
  String.prefix p s ||
  match s with
  | EmptyString => false
  | String _ s' => includes s' p
  end.

(** [s.substring(n)] *)
Fixpoint substring_from (n : nat) (s : string) : string :=
  match n, s with
  | O, _ => s
  | S n', String _ s' => substring_from n' s'
  | S _, EmptyString => EmptyString
  end.

Fixpoint trimStart (s : string) : string :=
  match s with
  | String c s' => if Ascii.is_space c then trimStart s' else s
  | EmptyString => EmptyString
  end.

(** [s.trim()] *)
Definition trim (s : string) : string :=
  String.rev (trimStart (String.rev (trimStart s))).

(** JavaScript truthiness of a string: every string but the empty one. *)
Definition truthy (s : string) : bool :=
  match s with EmptyString => false | String _ _ => true end.

(** [s.split(",")] *)
Fixpoint split_comma_go (cur : string) (s : string) : list string :=
  match s with
  | EmptyString => [String.rev cur]
  | String c s' =>
      if Ascii.eqb c ","%char
      then String.rev cur :: split_comma_go EmptyString s'
      else split_comma_go (String c cur) s'
  end.

Definition split_comma (s : string) : list string :=
  split_comma_go EmptyString s.

(** [a.join(",")] *)
Fixpoint join_comma (l : list string) : string :=
  match l with
  | [] => EmptyString
  | [x] => x
  | x :: l' => x +:+ "," +:+ join_comma l'
  end.

End JS.

(** ** The header bag and its in-place update *)

(** A [Record<string, string>]. *)
Abbreviation header_record := (gmap string string).

(** [Object.keys(o)] *)
Definition Object_keys (o : header_record) : list string :=
  (map_to_list o).*1.

(** [keys.forEach((key) => delete o[key])] *)
Definition delete_each (keys : list string) (o : header_record) : header_record :=
  foldl (λ acc key, delete key acc) o keys.

(** [Object.assign(target, source)]: every own property of [source] is
    written into [target]. *)
Definition Object_assign (target source : header_record) : header_record :=
  map_fold (λ key value acc, <[key := value]> acc) target source.

(** [updateHeadersInPlace(currentHeaders, newHeaders)]; the result is the
    content of the object [currentHeaders] when the call returns. *)
Definition updateHeadersInPlace (currentHeaders newHeaders : header_record)
    : header_record :=
  let accept := currentHeaders !! "Accept" in
  let cleared := delete_each (Object_keys currentHeaders) currentHeaders in
  let assigned := Object_assign cleared newHeaders in
  match accept with
  | Some a => if JS.truthy a then <["Accept" := a]> assigned else assigned
  | None => assigned
  end.

(** The header holders live on a heap: the session table and the upstream
    transport hold the same reference, and the update writes through it. *)
Abbreviation ref := nat.

Definition updateHolder (heap : gmap ref header_record) (holder : ref)
    (newHeaders : header_record) : gmap ref header_record :=
  match heap !! holder with
  | Some currentHeaders =>
      <[holder := updateHeadersInPlace currentHeaders newHeaders]> heap
  | None => heap
  end.

(** ** The request and the forwardable header set *)

(** A value of [req.headers]: Node gives a string, or for a header sent
    several times an array with at least one element. *)
Inductive header_value :=
  | HStr (s : string)
  | HArr (first : string) (rest : list string).

(** [req.headers] (Node lower-cases the names) and whether [express.json()]
    can parse the body. *)
Record request := {
  req_headers : gmap string header_value;
  req_body_parses : bool;
}.

(** The string for a string value, the last element for an array:
    [value.at(-1)] and [value[value.length - 1]]. *)
Definition last_value (v : header_value) : string :=
  match v with
  | HStr s => s
  | HArr first rest => List.last rest first
  end.

(** A header value where the code uses it as a string: an array is joined
    with commas by [Array.prototype.toString]. *)
Definition value_to_string (v : header_value) : string :=
  match v with
  | HStr s => s
  | HArr first rest => JS.join_comma (first :: rest)
  end.

(** The value [JSON.parse] returns. *)
#[warnings="-register-all"]
Inductive json :=
  | JNull
  | JBool (b : bool)
  | JNumber (literal : string)
  | JString (s : string)
  | JArray (items : list json)
  | JObject (fields : list (string * json)).

(** The test of the first loop: the header is one to forward. *)
Definition forwarded_name (lowerKey : string) : bool :=
  JS.startsWith lowerKey "mcp-"
  || String.eqb lowerKey "authorization"
  || String.eqb lowerKey "last-event-id".

(** The exclusion of the first loop: neither the proxy's own authentication
    header nor the client-to-proxy session id header. *)
Definition not_proxy_private (lowerKey : string) : bool :=
  negb (String.eqb lowerKey "x-mcp-proxy-auth")
  && negb (String.eqb lowerKey "mcp-session-id").

(** The body of [for (const key in req.headers)]. *)
Definition forward_step (key : string) (value : header_value)
    (headers : header_record) : header_record :=
  let lowerKey := JS.toLowerCase key in
  if forwarded_name lowerKey then
    if not_proxy_private lowerKey then <[key := last_value value]> headers
    else headers
  else headers.

(** [x-custom-auth-header]: one header name, forwarded under the name as
    the client spelled it. *)
Definition custom_auth_header (reqh : gmap string header_value)
    (headers : header_record) : header_record :=
  match reqh !! "x-custom-auth-header" with
  | Some (HStr customAuthHeaderName) =>
      let lowerCaseHeaderName := JS.toLowerCase customAuthHeaderName in
      match reqh !! lowerCaseHeaderName with
      | Some value => <[customAuthHeaderName := last_value value]> headers
      | None => headers
      end
  | _ => headers
  end.

(** [customHeaderNames.forEach(...)]: a name that is not a string has no
    [toLowerCase], the call throws and the enclosing [try] ends the loop
    with the entries written so far.  The lookup is that of an own
    property: for a name that lower-cases to [constructor] or [__proto__]
    the code finds a member of [Object.prototype] instead, which the model
    leaves out. *)
Fixpoint custom_names_forEach (reqh : gmap string header_value)
    (customHeaderNames : list json) (headers : header_record) : header_record :=
  match customHeaderNames with
  | [] => headers
  | JString headerName :: rest =>
      let lowerCaseHeaderName := JS.toLowerCase headerName in
      custom_names_forEach reqh rest
        match reqh !! lowerCaseHeaderName with
        | Some value => <[headerName := last_value value]> headers
        | None => headers
        end
  | _ :: _ => headers
  end.

Section Projection.

(** [JSON.parse]: [None] when it throws a [SyntaxError]. *)
Variable JSON_parse : string → option json.

(** [x-custom-auth-headers]: a JSON list of header names. *)
Definition custom_auth_headers (reqh : gmap string header_value)
    (headers : header_record) : header_record :=
  match reqh !! "x-custom-auth-headers" with
  | Some raw =>
      match JSON_parse (value_to_string raw) with
      | Some (JArray customHeaderNames) =>
          custom_names_forEach reqh customHeaderNames headers
      | Some _ => headers
      | None => headers
      end
  | None => headers
  end.

(** [getHttpHeaders(req)] *)
Definition getHttpHeaders (req : request) : header_record :=
  let reqh := req_headers req in
  let headers := map_fold forward_step ∅ reqh in
  let headers := custom_auth_header reqh headers in
  custom_auth_headers reqh headers.

End Projection.

(** A name is one of the two proxy-private headers, whatever its case. *)
Definition proxy_private (name : string) : bool :=
  String.eqb (JS.toLowerCase name) "x-mcp-proxy-auth"
  || String.eqb (JS.toLowerCase name) "mcp-session-id".

(** ** Configuration, origin guard and auth gate *)

(** What the module reads from the environment when it is loaded. *)
Record config := {
  sessionToken : string;
  authDisabled : bool;
  CLIENT_PORT : option string;
  ALLOWED_ORIGINS : option string;
}.

(** How a middleware leaves a request: it calls [next()], it answers, or it
    throws. *)
Inductive outcome :=
  | Next
  | Respond (status : nat) (error : string)
  | Throws.

(** [originValidationMiddleware] *)
Definition originValidationMiddleware (cfg : config) (req : request) : outcome :=
  let origin := req_headers req !! "origin" in
  let clientPort :=
    match CLIENT_PORT cfg with
    | Some p => if JS.truthy p then p else "6274"
    | None => "6274"
    end in
  let defaultOrigin := "http://localhost:" +:+ clientPort in
  let allowedOrigins :=
    match ALLOWED_ORIGINS cfg with
    | Some list => JS.split_comma list
    | None => [defaultOrigin]
    end in
  match origin with
  | Some (HStr o) =>
      if JS.truthy o && negb (bool_decide (o ∈ allowedOrigins))
      then Respond 403 "Forbidden - invalid origin"
      else Next
  | Some (HArr _ _) => Respond 403 "Forbidden - invalid origin"
  | None => Next
  end.

(** [Buffer.from(s)]: the UTF-8 bytes of a string of code units below 256. *)
Definition utf8_unit (c : ascii) : list N :=
  let n := N_of_ascii c in
  if (n <? 128)%N then [n] else [(192 + n / 64)%N; (128 + n mod 64)%N].

Fixpoint Buffer_from (s : string) : list N :=
  match s with
  | EmptyString => []
  | String c s' => utf8_unit c ++ Buffer_from s'
  end.

(** [crypto.timingSafeEqual(a, b)]: it throws on buffers of different
    lengths ([None]); otherwise every pair of bytes is combined into one
    accumulator, which is tested once at the end. *)
Fixpoint accumulate_diff (a b : list N) (acc : N) : N :=
  match a, b with
  | x :: a', y :: b' => accumulate_diff a' b' (N.lor acc (N.lxor x y))
  | _, _ => acc
  end.

Definition timingSafeEqual (a b : list N) : option bool :=
  if Nat.eqb (length a) (length b)
  then Some (N.eqb (accumulate_diff a b 0) 0)
  else None.

(** The comparisons the auth gate performs on the credential, with the
    sizes they work on. *)
Inductive auth_op :=
  | OpCompareLengths (provided expected : nat)
  | OpTimingSafeEqual (size : nat).

(** [authHeaderValue]: the first element when the header came as an array. *)
Definition authHeaderValue (req : request) : option string :=
  match req_headers req !! "x-mcp-proxy-auth" with
  | Some (HStr s) => Some s
  | Some (HArr first _) => Some first
  | None => None
  end.

Definition sendUnauthorized : outcome := Respond 401 "Unauthorized".

(** [authMiddleware]: the comparisons made, and how the request leaves. *)
Definition authMiddleware (cfg : config) (req : request)
    : list auth_op * outcome :=
  if authDisabled cfg then ([], Next)
  else
    match authHeaderValue req with
    | None => ([], sendUnauthorized)
    | Some value =>
        if negb (JS.truthy value) || negb (JS.startsWith value "Bearer ")
        then ([], sendUnauthorized)
        else
          let providedToken := JS.substring_from 7 value in
          let expectedToken := sessionToken cfg in
          let providedBuffer := Buffer_from providedToken in
          let expectedBuffer := Buffer_from expectedToken in
          let lengths :=
            OpCompareLengths (length providedBuffer) (length expectedBuffer) in
          if negb (Nat.eqb (length providedBuffer) (length expectedBuffer))
          then ([lengths], sendUnauthorized)
          else
            let compare := OpTimingSafeEqual (length providedBuffer) in
            match timingSafeEqual providedBuffer expectedBuffer with
            | Some true => ([lengths; compare], Next)
            | Some false => ([lengths; compare], sendUnauthorized)
            | None => ([lengths; compare], Throws)
            end
    end.

(** The rejection condition of the gate in the specification's words: the
    header is absent, it is not a [Bearer] credential, the credential's
    length differs from the secret's, or its bytes do. *)
Definition credential_rejected (cfg : config) (req : request) : Prop :=
  match authHeaderValue req with
  | None => True
  | Some value =>
      JS.startsWith value "Bearer " = false
      ∨ (let provided := Buffer_from (JS.substring_from 7 value) in
         let expected := Buffer_from (sessionToken cfg) in
         length provided ≠ length expected ∨ provided ≠ expected)
  end.

(** ** Routes and their middleware chains *)

Inductive http_method := GET | POST | DELETE.

Inductive middleware := OriginValidation | Auth | ExpressJson.

Record route := {
  route_method : http_method;
  route_path : string;
  route_chain : list middleware;
}.

(** Every [app.get], [app.post] and [app.delete] of the module, in the order
    of the file, with the middlewares listed before its handler. *)
Definition routes : list route := [
  {| route_method := GET; route_path := "/mcp";
     route_chain := [OriginValidation; Auth] |};
  {| route_method := POST; route_path := "/mcp";
     route_chain := [OriginValidation; Auth] |};
  {| route_method := DELETE; route_path := "/mcp";
     route_chain := [OriginValidation; Auth] |};
  {| route_method := GET; route_path := "/stdio";
     route_chain := [OriginValidation; Auth] |};
  {| route_method := GET; route_path := "/sse";
     route_chain := [OriginValidation; Auth] |};
  {| route_method := POST; route_path := "/message";
     route_chain := [OriginValidation; Auth] |};
  {| route_method := GET; route_path := "/health";
     route_chain := [] |};
  {| route_method := GET; route_path := "/fetch-json";
     route_chain := [OriginValidation; Auth] |};
  {| route_method := GET; route_path := "/mcp-config";
     route_chain := [OriginValidation; Auth] |};
  {| route_method := GET; route_path := "/config";
     route_chain := [OriginValidation; Auth] |};
  {| route_method := GET; route_path := "/servers";
     route_chain := [OriginValidation] |};
  {| route_method := GET; route_path := "/servers/:serverName/tools";
     route_chain := [OriginValidation] |};
  {| route_method := POST; route_path := "/update-mcp-config";
     route_chain := [OriginValidation; Auth; ExpressJson] |};
  {| route_method := POST; route_path := "/execute-tool";
     route_chain := [OriginValidation; ExpressJson] |};
  {| route_method := GET; route_path := "/logs";
     route_chain := [OriginValidation; Auth] |};
  {| route_method := GET; route_path := "/logs/current";
     route_chain := [] |};
  {| route_method := GET; route_path := "/logs/:filename";
     route_chain := [] |};
  {| route_method := DELETE; route_path := "/logs/cleanup";
     route_chain := [OriginValidation; Auth] |};
  {| route_method := POST; route_path := "/logs/test";
     route_chain := [OriginValidation; Auth; ExpressJson] |}
].

Definition run_middleware (cfg : config) (req : request) (m : middleware)
    : outcome :=
  match m with
  | OriginValidation => originValidationMiddleware cfg req
  | Auth => (authMiddleware cfg req).2
  | ExpressJson =>
      if req_body_parses req then Next else Respond 400 "Bad Request"
  end.

(** Express runs the chain from the left; a middleware that does not call
    [next()] ends it.  The result lists the middlewares that ran and tells
    whether the handler is reached ([Next]). *)
Fixpoint run_chain (cfg : config) (req : request) (chain : list middleware)
    : list middleware * outcome :=
  match chain with
  | [] => ([], Next)
  | m :: rest =>
      match run_middleware cfg req m with
      | Next => let '(ran, out) := run_chain cfg req rest in (m :: ran, out)
      | out => ([m], out)
      end
  end.

(** The routes that the statement about the origin check leaves aside: the
    health probe, and the two log readers. *)
Definition unguarded_paths : list string :=
  ["/health"; "/logs/current"; "/logs/:filename"].

(** ** The stderr classifier *)

(** The RFC 5424 levels of a [notifications/message]. *)
Inductive LoggingLevel :=
  | debug | info | notice | warning | error | critical | alert | emergency.

(** The level and the message the [else] branch of the stderr handler
    computes for a chunk. *)
Definition classify (chunk : string) : LoggingLevel * string :=
  let message := JS.trim chunk in
  let ucMsg := JS.toUpperCase chunk in
  if JS.includes ucMsg "DEBUG" then (debug, message)
  else if JS.includes ucMsg "INFO" then (info, message)
  else if JS.includes ucMsg "NOTICE" then (notice, message)
  else if JS.includes ucMsg "WARN" then (warning, message)
  else if JS.includes ucMsg "ERROR" then (error, message)
  else if JS.includes ucMsg "CRITICAL" then (critical, message)
  else if JS.includes ucMsg "ALERT" then (alert, message)
  else if JS.includes ucMsg "EMERGENCY" then (emergency, message)
  else if JS.includes ucMsg "SIGINT"
    then (emergency, "SIGINT received. Server shutdown.")
  else if JS.includes ucMsg "SIGHUP"
    then (emergency, "SIGHUP received. Server shutdown.")
  else if JS.includes ucMsg "SIGTERM"
    then (emergency, "SIGTERM received. Server shutdown.")
  else (info, message).

(** The keyword table the classifier is described by: the keyword looked
    for in the upper-cased chunk, the level, and the text that replaces the
    message when there is one. *)
Definition keyword_table : list (string * LoggingLevel * option string) := [
  ("DEBUG", debug, None);
  ("INFO", info, None);
  ("NOTICE", notice, None);
  ("WARN", warning, None);
  ("ERROR", error, None);
  ("CRITICAL", critical, None);
  ("ALERT", alert, None);
  ("EMERGENCY", emergency, None);
  ("SIGINT", emergency, Some "SIGINT received. Server shutdown.");
  ("SIGHUP", emergency, Some "SIGHUP received. Server shutdown.");
  ("SIGTERM", emergency, Some "SIGTERM received. Server shutdown.")
].

(** First match in the table, [info] and the trimmed text by default. *)
Definition classify_by_table (chunk : string) : LoggingLevel * string :=
  match
    List.find (λ row, JS.includes (JS.toUpperCase chunk) row.1.1) keyword_table
  with
  | Some (_, level, Some fixed) => (level, fixed)
  | Some (_, level, None) => (level, JS.trim chunk)
  | None => (info, JS.trim chunk)
  end.

(** ** The session tables *)

Inductive transport_kind :=
  | StdioClient | SSEClient | StreamableHTTPClient
  | SSEServer | StreamableHTTPServer.

(** A transport object: its identity and its class. *)
Record transport := {
  transport_ref : ref;
  transport_kind_of : transport_kind;
}.

(** The three module-level [Map]s. *)
Record registry := {
  webAppTransports : gmap string transport;
  serverTransports : gmap string transport;
  sessionHeaderHolders : gmap string ref;
}.

Definition empty_registry : registry :=
  {| webAppTransports := ∅; serverTransports := ∅; sessionHeaderHolders := ∅ |}.

(** [webAppTransports.set(sessionId, t)] and its siblings. *)
Definition webAppTransports_set (sessionId : string) (t : transport)
    (reg : registry) : registry :=
  {| webAppTransports := <[sessionId := t]> (webAppTransports reg);
     serverTransports := serverTransports reg;
     sessionHeaderHolders := sessionHeaderHolders reg |}.

Definition serverTransports_set (sessionId : string) (t : transport)
    (reg : registry) : registry :=
  {| webAppTransports := webAppTransports reg;
     serverTransports := <[sessionId := t]> (serverTransports reg);
     sessionHeaderHolders := sessionHeaderHolders reg |}.

Definition sessionHeaderHolders_set (sessionId : string) (holder : ref)
    (reg : registry) : registry :=
  {| webAppTransports := webAppTransports reg;
     serverTransports := serverTransports reg;
     sessionHeaderHolders := <[sessionId := holder]> (sessionHeaderHolders reg) |}.

Definition webAppTransports_delete (sessionId : string) (reg : registry)
    : registry :=
  {| webAppTransports := delete sessionId (webAppTransports reg);
     serverTransports := serverTransports reg;
     sessionHeaderHolders := sessionHeaderHolders reg |}.

Definition serverTransports_delete (sessionId : string) (reg : registry)
    : registry :=
  {| webAppTransports := webAppTransports reg;
     serverTransports := delete sessionId (serverTransports reg);
     sessionHeaderHolders := sessionHeaderHolders reg |}.

Definition sessionHeaderHolders_delete (sessionId : string) (reg : registry)
    : registry :=
  {| webAppTransports := webAppTransports reg;
     serverTransports := serverTransports reg;
     sessionHeaderHolders := delete sessionId (sessionHeaderHolders reg) |}.

(** The stretches of code that write the tables.  Each runs between two
    [await]s without yielding, so no other handler sees the tables in the
    middle of one. *)

(** [GET /stdio], after [createTransport] has resolved: the header holder
    that [createTransport] may return is not taken by this route. *)
Definition stdio_register (sessionId : string)
    (webAppTransport serverTransport : transport) (reg : registry) : registry :=
  serverTransports_set sessionId serverTransport
    (webAppTransports_set sessionId webAppTransport reg).

(** [GET /sse] after [createTransport], and [onsessioninitialized] of
    [POST /mcp]. *)
Definition session_register (sessionId : string)
    (webAppTransport serverTransport : transport) (headerHolder : option ref)
    (reg : registry) : registry :=
  let reg := webAppTransports_set sessionId webAppTransport reg in
  let reg := serverTransports_set sessionId serverTransport reg in
  match headerHolder with
  | Some holder => sessionHeaderHolders_set sessionId holder reg
  | None => reg
  end.

(** The three [delete]s of [onsessionclosed], of [DELETE /mcp] and of the
    stderr handler. *)
Definition session_remove (sessionId : string) (reg : registry) : registry :=
  sessionHeaderHolders_delete sessionId
    (serverTransports_delete sessionId
      (webAppTransports_delete sessionId reg)).

(** One step of the proxy that writes the tables. *)
Inductive step : registry → registry → Prop :=
  | step_stdio sessionId web server reg :
      step reg (stdio_register sessionId web server reg)
  | step_sse sessionId web server headerHolder reg :
      step reg (session_register sessionId web server headerHolder reg)
  | step_onsessioninitialized sessionId web server headerHolder reg :
      step reg (session_register sessionId web server headerHolder reg)
  | step_onsessionclosed sessionId reg :
      step reg (session_remove sessionId reg)
  | step_delete_mcp sessionId reg :
      step reg (session_remove sessionId reg)
  | step_stderr_fatal sessionId reg :
      step reg (session_remove sessionId reg).

(** The states the proxy can be observed in. *)
Inductive reachable : registry → Prop :=
  | reachable_start : reachable empty_registry
  | reachable_step reg reg' : reachable reg → step reg reg' → reachable reg'.

(** A session id is in both transport tables, or in no table at all. *)
Definition registered (sessionId : string) (reg : registry) : Prop :=
  is_Some (webAppTransports reg !! sessionId)
  ∧ is_Some (serverTransports reg !! sessionId).

Definition absent (sessionId : string) (reg : registry) : Prop :=
  webAppTransports reg !! sessionId = None
  ∧ serverTransports reg !! sessionId = None
  ∧ sessionHeaderHolders reg !! sessionId = None.

(** ** Handlers that act on transports *)

(** The JSON-RPC notification the stderr handler sends. *)
Record log_notification := {
  log_level : LoggingLevel;
  log_logger : string;
  log_message : string;
}.

(** A call on a transport object. *)
Inductive call :=
  | Send (t : transport) (n : log_notification)
  | Close (t : transport)
  | TerminateSession (t : transport).

(** The [stderr.on("data", ...)] handler of [GET /stdio]; [sessionId] is
    [webAppTransport.sessionId]. *)
Definition stderr_on_data (sessionId : string)
    (webAppTransport serverTransport : transport) (chunk : string)
    (reg : registry) : registry * list call :=
  if JS.includes chunk "MODULE_NOT_FOUND" then
    let message := "Command not found, transports removed" in
    (session_remove sessionId reg,
     [Send webAppTransport
        {| log_level := emergency; log_logger := "proxy";
           log_message := message |};
      Close webAppTransport;
      Close serverTransport])
  else
    let '(level, message) := classify chunk in
    (reg,
     [Send webAppTransport
        {| log_level := level; log_logger := "stdio";
           log_message := message |}]).

(** The response a handler has sent when it returns, if any. *)
Record handled := {
  after : registry;
  calls : list call;
  response : option nat;
}.

(** The handler of [DELETE /mcp].  [terminate_ok] tells whether the promise
    of [terminateSession()] resolves; a transport of another class has no
    such method, the call throws and the [catch] answers 500.  After the 404
    the handler also reaches [res.status(200).end()], which has no effect on
    a response that is already ended. *)
Definition delete_mcp_handler (terminate_ok : bool) (req : request)
    (reg : registry) : handled :=
  match req_headers req !! "mcp-session-id" with
  | Some (HStr sessionId) =>
      if JS.truthy sessionId then
        match serverTransports reg !! sessionId with
        | None => {| after := reg; calls := []; response := Some 404 |}
        | Some serverTransport =>
            match transport_kind_of serverTransport with
            | StreamableHTTPClient =>
                if terminate_ok then
                  {| after := session_remove sessionId reg;
                     calls := [TerminateSession serverTransport];
                     response := Some 200 |}
                else
                  {| after := reg;
                     calls := [TerminateSession serverTransport];
                     response := Some 500 |}
            | _ => {| after := reg; calls := []; response := Some 500 |}
            end
        end
      else {| after := reg; calls := []; response := None |}
  | Some (HArr _ _) => {| after := reg; calls := []; response := Some 404 |}
  | None => {| after := reg; calls := []; response := None |}
  end.

(** [app.delete("/mcp", originValidationMiddleware, authMiddleware, ...)] *)
Definition delete_mcp (cfg : config) (terminate_ok : bool) (req : request)
    (reg : registry) : handled :=
  match run_chain cfg req [OriginValidation; Auth] with
  | (_, Next) => delete_mcp_handler terminate_ok req reg
  | (_, Respond status _) =>
      {| after := reg; calls := []; response := Some status |}
  | (_, Throws) => {| after := reg; calls := []; response := Some 500 |}
  end.

(** ** Concrete requests, configurations and tables *)

Definition make_request (l : list (string * header_value)) : request :=
  {| req_headers := list_to_map l; req_body_parses := true |}.

(** A bag as [createTransport] leaves it for an SSE session. *)
Definition bag_sse : header_record :=
  {[ "Accept" := "text/event-stream" ]}.

(** A projected header set that names [Accept] itself. *)
Definition new_with_accept : header_record :=
  {[ "Accept" := "application/json"; "authorization" := "Bearer upstream" ]}.

Definition new_without_accept : header_record :=
  {[ "authorization" := "Bearer upstream" ]}.

(** The client declares the proxy's own auth header as a custom header. *)
Definition request_naming_proxy_auth : request :=
  make_request [
    ("x-mcp-proxy-auth", HStr "Bearer s3cret");
    ("x-custom-auth-header", HStr "x-mcp-proxy-auth");
    ("mcp-protocol-version", HStr "2025-06-18")
  ].

Definition request_naming_session_id : request :=
  make_request [
    ("x-mcp-proxy-auth", HStr "Bearer s3cret");
    ("mcp-session-id", HStr "5f0c");
    ("x-custom-auth-header", HStr "Mcp-Session-Id")
  ].

(** No environment variable set but the token. *)
Definition config_s3cret : config :=
  {| sessionToken := "s3cret"; authDisabled := false;
     CLIENT_PORT := None; ALLOWED_ORIGINS := None |}.

(** A request that carries [token] as its bearer credential. *)
Definition bearer_request (token : string) : request :=
  make_request [("x-mcp-proxy-auth", HStr ("Bearer " +:+ token))].

Definition cross_origin_request : request :=
  make_request [("origin", HStr "http://evil.example")].

Definition health_route : route :=
  {| route_method := GET; route_path := "/health"; route_chain := [] |}.

Definition mcp_delete_route : route :=
  {| route_method := DELETE; route_path := "/mcp";
     route_chain := [OriginValidation; Auth] |}.

Definition web_http : transport :=
  {| transport_ref := 1; transport_kind_of := StreamableHTTPServer |}.

Definition upstream_http : transport :=
  {| transport_ref := 2; transport_kind_of := StreamableHTTPClient |}.

Definition web_sse : transport :=
  {| transport_ref := 3; transport_kind_of := SSEServer |}.

Definition child_stdio : transport :=
  {| transport_ref := 4; transport_kind_of := StdioClient |}.

(** One streamable-HTTP session, registered with its header holder. *)
Definition registry_one_http : registry :=
  session_register "5f0c" web_http upstream_http (Some 7) empty_registry.

(** One stdio session. *)
Definition registry_one_stdio : registry :=
  stdio_register "a1b2" web_sse child_stdio empty_registry.

Definition delete_request : request :=
  make_request [
    ("x-mcp-proxy-auth", HStr "Bearer s3cret");
    ("mcp-session-id", HStr "5f0c")
  ].

Definition module_not_found_chunk : string :=
  "Error: Cannot find module; code: MODULE_NOT_FOUND".

(** The routes whose chain has no auth check. *)
Definition unauthenticated_paths : list string :=
  ["/health"; "/servers"; "/servers/:serverName/tools"; "/execute-tool";
   "/logs/current"; "/logs/:filename"].

(** The one origin allowed when [ALLOWED_ORIGINS] is not set. *)
Definition default_origin (cfg : config) : string :=
  "http://localhost:" +:+
    match CLIENT_PORT cfg with
    | Some p => if JS.truthy p then p else "6274"
    | None => "6274"
    end.

Definition execute_tool_route : route :=
  {| route_method := POST; route_path := "/execute-tool";
     route_chain := [OriginValidation; ExpressJson] |}.

Definition config_two_origins : config :=
  {| sessionToken := "s3cret"; authDisabled := false;
     CLIENT_PORT := None;
     ALLOWED_ORIGINS := Some "http://localhost:6274,https://inspector.example" |}.

Definition request_from (origin : string) : request :=
  make_request [("origin", HStr origin)].

(** A string without a comma. *)
Fixpoint comma_free (s : string) : bool :=
  match s with
  | EmptyString => true
  | String c s' => negb (Ascii.eqb c ","%char) && comma_free s'
  end.

(** Node hands out header names in lower case. *)
Definition lowercase_names (reqh : gmap string header_value) : Prop :=
  ∀ key, is_Some (reqh !! key) → JS.toLowerCase key = key.

Definition is_JString (j : json) : bool :=
  match j with JString _ => true | _ => false end.

(** A JSON list that names two headers. *)
Definition parse_two_names (raw : string) : option json :=
  Some (JArray [JString "X-Api-Key"; JString "x-tenant"]).

Definition request_two_custom : request :=
  make_request [
    ("x-custom-auth-headers", HStr "[X-Api-Key, x-tenant]");
    ("x-api-key", HStr "k-123");
    ("x-tenant", HArr "acme" ["umbrella"]);
    ("authorization", HStr "Bearer upstream");
    ("cookie", HStr "a=b")
  ].

Definition request_plain : request :=
  make_request [
    ("authorization", HArr "Bearer old" ["Bearer upstream"]);
    ("mcp-protocol-version", HStr "2025-06-18");
    ("mcp-session-id", HStr "5f0c");
    ("cookie", HStr "a=b")
  ].

(** Every entry holds the last value of a request header of that name, as
    written or in lower case. *)
Definition from_request (reqh : gmap string header_value) (h : header_record)
    : Prop :=
  ∀ k v, h !! k = Some v →
    ∃ hv, (reqh !! k = Some hv ∨ reqh !! JS.toLowerCase k = Some hv)
          ∧ v = last_value hv.

(** The names of a request are in lower case, as a test that computes. *)
Definition lowercase_namesb (reqh : gmap string header_value) : bool :=
  forallb (λ key, String.eqb (JS.toLowerCase key) key) (map_to_list reqh).*1.

(** ** Transport creation and the requests of a session *)

(** What [createTransport] resolves to: the class of the upstream transport
    and the header holder it was built with, or a thrown error. *)
Inductive created :=
  | Created (kind : transport_kind) (headerHolder : option header_record)
  | CreateThrows.

(** [createTransport(req)].  [transportType] is [req.query.transportType];
    [starts] tells whether the parameters are usable and [transport.start()]
    resolves (the command and the URL are handled by the libraries). *)
Definition createTransport (JSON_parse : string → option json)
    (transportType : option string) (starts : bool) (req : request) : created :=
  match transportType with
  | Some t =>
      if String.eqb t "stdio" then
        if starts then Created StdioClient None else CreateThrows
      else if String.eqb t "sse" then
        let headers := getHttpHeaders JSON_parse req in
        let headers := <["Accept" := "text/event-stream"]> headers in
        if starts then Created SSEClient (Some headers) else CreateThrows
      else if String.eqb t "streamable-http" then
        let headers := getHttpHeaders JSON_parse req in
        let headers :=
          <["Accept" := "text/event-stream, application/json"]> headers in
        if starts then Created StreamableHTTPClient (Some headers)
        else CreateThrows
      else CreateThrows
  | None => CreateThrows
  end.

(** [{ ...a, ...b, ...c }]: the objects are copied from the left, a later
    one overwriting an earlier one. *)
Definition spread (objects : list header_record) : header_record :=
  foldl Object_assign ∅ objects.

(** [defaultEnvironment] of the module and [env] of the stdio branch. *)
Definition defaultEnvironment (sdk_default mcp_env_vars : header_record)
    : header_record :=
  spread [sdk_default; mcp_env_vars].

Definition stdio_env (sdk_default mcp_env_vars process_env queryEnv : header_record)
    : header_record :=
  spread [defaultEnvironment sdk_default mcp_env_vars; process_env; queryEnv].

(** The tables together with the header objects the holders refer to. *)
Record proxy_state := {
  tables : registry;
  holder_heap : gmap ref header_record;
}.

(** How a session route leaves a request: with a status of its own, or
    handed to the web-facing transport, which answers it. *)
Inductive reply :=
  | Reply (status : nat)
  | HandedTo (t : transport)
  | NewConnection.

(** The header value where the code uses it as a [Map] key: only a string
    can be a key of the tables. *)
Definition session_key (v : option header_value) : option string :=
  match v with
  | Some (HStr s) => Some s
  | _ => None
  end.

(** The block shared by [GET /mcp], [POST /mcp] and [POST /message]: update
    the header holder of the session when there is one, then look the
    web-facing transport up. *)
Definition session_request (JSON_parse : string → option json)
    (sessionId : option string) (req : request) (st : proxy_state)
    : proxy_state * reply :=
  let st' :=
    match sessionId ≫= (sessionHeaderHolders (tables st) !!.) with
    | Some headerHolder =>
        {| tables := tables st;
           holder_heap :=
             updateHolder (holder_heap st) headerHolder
               (getHttpHeaders JSON_parse req) |}
    | None => st
    end in
  match sessionId ≫= (webAppTransports (tables st) !!.) with
  | Some transport => (st', HandedTo transport)
  | None => (st', Reply 404)
  end.

(** The handler of [GET /mcp]. *)
Definition get_mcp_handler (JSON_parse : string → option json)
    (req : request) (st : proxy_state) : proxy_state * reply :=
  session_request JSON_parse
    (session_key (req_headers req !! "mcp-session-id")) req st.

(** The handler of [POST /mcp]: a request without a session id asks for a
    new connection. *)
Definition post_mcp_handler (JSON_parse : string → option json)
    (req : request) (st : proxy_state) : proxy_state * reply :=
  match req_headers req !! "mcp-session-id" with
  | Some (HStr sessionId) =>
      if JS.truthy sessionId
      then session_request JSON_parse (Some sessionId) req st
      else (st, NewConnection)
  | Some (HArr _ _) => session_request JSON_parse None req st
  | None => (st, NewConnection)
  end.

(** The handler of [POST /message]; [sessionId] is [req.query.sessionId]. *)
Definition post_message_handler (JSON_parse : string → option json)
    (sessionId : option string) (req : request) (st : proxy_state)
    : proxy_state * reply :=
  session_request JSON_parse sessionId req st.

(** The bag of a session after the requests [reqs], oldest first. *)
Definition bag_after (JSON_parse : string → option json)
    (bag : header_record) (reqs : list request) : header_record :=
  foldl (λ b r, updateHeadersInPlace b (getHttpHeaders JSON_parse r)) bag reqs.

(** The text [createTransport] puts under [Accept]. *)
Definition accept_of (kind : transport_kind) : string :=
  match kind with
  | SSEClient => "text/event-stream"
  | _ => "text/event-stream, application/json"
  end.

Definition request_asking_json : request :=
  make_request [
    ("accept", HStr "application/json");
    ("x-custom-auth-header", HStr "Accept");
    ("authorization", HStr "Bearer rotated")
  ].

(** A state with one streamable-HTTP session and its bag. *)
Definition state_one_http : proxy_state :=
  {| tables := registry_one_http;
     holder_heap := {[ 7 := {[ "Accept" := "text/event-stream, application/json";
                               "authorization" := "Bearer first" ]} ]} |}.

Definition env_sdk : header_record := {[ "PATH" := "/usr/bin"; "HOME" := "/root" ]}.
Definition env_vars : header_record := {[ "HOME" := "/srv" ]}.
Definition env_process : header_record := {[ "PATH" := "/opt/bin"; "LANG" := "C" ]}.
Definition env_query : header_record := {[ "LANG" := "en_US.UTF-8" ]}.

Definition delete_request_stdio : request :=
  make_request [
    ("x-mcp-proxy-auth", HStr "Bearer s3cret");
    ("mcp-session-id", HStr "a1b2")
  ].

Definition delete_request_no_token : request :=
  make_request [("mcp-session-id", HStr "5f0c")].

(** ** The log readers and their pagination *)

(** [s.split(sep)] for a separator of one character. *)
Fixpoint split_on_go (sep : ascii) (cur : string) (s : string) : list string :=
  match s with
  | EmptyString => [String.rev cur]
  | String c s' =>
      if Ascii.eqb c sep
      then String.rev cur :: split_on_go sep EmptyString s'
      else split_on_go sep (String c cur) s'
  end.

Definition split_on (sep : ascii) (s : string) : list string :=
  split_on_go sep EmptyString s.

(** [l.join(sep)] *)
Fixpoint join_with (sep : ascii) (l : list string) : string :=
  match l with
  | [] => EmptyString
  | [x] => x
  | x :: l' => x +:+ String sep (join_with sep l')
  end.

(** A string in which [sep] does not occur. *)
Fixpoint free_of (sep : ascii) (s : string) : bool :=
  match s with
  | EmptyString => true
  | String c s' => negb (Ascii.eqb c sep) && free_of sep s'
  end.

(** [content.split("\n")] *)
Definition split_lines (content : string) : list string :=
  split_on "010"%char content.

(** [content.split("\n").filter(line => line.trim())]: the lines that are
    not blank. *)
Definition nonblank_lines (content : string) : list string :=
  List.filter (λ line, JS.truthy (JS.trim line)) (split_lines content).

(** [parseInt(q) || d], on what [parseInt] returns ([None] for [NaN]): zero
    and [NaN] give the default.  The number is an integer that the double
    holds exactly; [Infinity], which [parseInt] returns for a number of
    more than 308 digits, is outside the model. *)
Definition or_default (parsed : option Z) (default : Z) : Z :=
  match parsed with
  | Some n => if (n =? 0)%Z then default else n
  | None => default
  end.

(** [l.slice(start, end)], with the clamping of negative and large
    indices. *)
Definition js_slice {A} (l : list A) (start finish : Z) : list A :=
  let len := Z.of_nat (length l) in
  let clamp i := if (i <? 0)%Z then Z.max (len + i) 0 else Z.min i len in
  let k := clamp start in
  let final := clamp finish in
  take (Z.to_nat (final - k)) (drop (Z.to_nat k) l).

(** [Math.ceil(a / b)] on integers, for [b] other than zero. *)
Definition ceil_div (a b : Z) : Z := (- ((- a) / b))%Z.

(** The body of the answer of a log reader; [content] of the answer is
    [view_lines] joined by line feeds. *)
Record page_view := {
  view_lines : list string;
  view_page : Z;
  view_limit : Z;
  view_totalLines : Z;
  view_totalPages : Z;
  view_hasNext : bool;
  view_hasPrev : bool;
}.

(** [GET /logs/current], once the log file is read; [page_q] and [limit_q]
    are [parseInt] of the query parameters. *)
Definition logs_current_view (content : string) (page_q limit_q : option Z)
    : page_view :=
  let lines := nonblank_lines content in
  let page := or_default page_q 1 in
  let limit := or_default limit_q 50 in
  let totalLines := Z.of_nat (length lines) in
  let endIndex := totalLines in
  let startIndex := Z.max 0 (endIndex - limit) in
  let paginatedLines := js_slice lines startIndex endIndex in
  let totalPages := ceil_div totalLines limit in
  {| view_lines := paginatedLines;
     view_page := page;
     view_limit := limit;
     view_totalLines := totalLines;
     view_totalPages := totalPages;
     view_hasNext := (page <? totalPages)%Z;
     view_hasPrev := (1 <? page)%Z |}.

(** [GET /logs/:filename], once the file is read. *)
Definition logs_file_view (content : string) (page_q limit_q : option Z)
    : page_view :=
  let lines := nonblank_lines content in
  let page := or_default page_q 1 in
  let limit := or_default limit_q 50 in
  let startIndex := ((page - 1) * limit)%Z in
  let endIndex := (startIndex + limit)%Z in
  let paginatedLines := js_slice lines startIndex endIndex in
  let totalLines := Z.of_nat (length lines) in
  let totalPages := ceil_div totalLines limit in
  {| view_lines := paginatedLines;
     view_page := page;
     view_limit := limit;
     view_totalLines := totalLines;
     view_totalPages := totalPages;
     view_hasNext := (page <? totalPages)%Z;
     view_hasPrev := (1 <? page)%Z |}.

(** The page numbers [1 .. n]. *)
Definition pages_upto (n : Z) : list Z :=
  (λ i, Z.of_nat (S i)) <$> seq 0 (Z.to_nat n).

Definition log_of_five : string :=
  "[t1] [INFO] one
[t2] [INFO] two

[t3] [ERROR] three
   
[t4] [INFO] four
[t5] [WARN] five
".

(** ** The target of [GET /fetch-json] *)

(** The parts of a parsed [URL] that the route reads. *)
Record parsed_url := {
  url_protocol : string;
  url_hostname : string;
  url_pathname : string;
}.

(** What the [safeUrl] block of the route evaluates to: it throws, it keeps
    the URL as parsed ([u.toString()]), or it builds a new URL from the text
    [target]. *)
Inductive safe_url :=
  | SafeThrows
  | SafeSame
  | SafeRewritten (target : string).

(** [pathname.split("/").filter(Boolean)] *)
Definition path_parts (pathname : string) : list string :=
  List.filter JS.truthy (split_on "/"%char pathname).

(** [parts.indexOf(x)], [None] for -1. *)
Fixpoint indexOf (x : string) (parts : list string) : option nat :=
  match parts with
  | [] => None
  | y :: parts' => if String.eqb y x then Some 0 else S <$> indexOf x parts'
  end.

(** The GitHub branch of the block: a [blob] page URL becomes a raw one. *)
Definition github_raw (parts : list string) : option string :=
  match indexOf "blob" parts with
  | Some blobIndex =>
      if Nat.ltb (blobIndex + 1) (length parts) then
        let user := nth 0 parts "" in
        let repo := nth 1 parts "" in
        let branch := nth (blobIndex + 1) parts "" in
        let filePath := join_with "/"%char (drop (blobIndex + 2) parts) in
        Some ("https://raw.githubusercontent.com/" +:+ user +:+ "/" +:+ repo
              +:+ "/" +:+ branch +:+ "/" +:+ filePath)
      else None
  | None => None
  end.

(** The Gist branch: the page of a gist becomes its raw URL. *)
Definition gist_raw (parts : list string) : option string :=
  if Nat.leb 2 (length parts) then
    let user := nth 0 parts "" in
    let id := nth 1 parts "" in
    Some ("https://gist.githubusercontent.com/" +:+ user +:+ "/" +:+ id
          +:+ "/raw")
  else None.

(** The [safeUrl] block; [u] is [None] when [new URL(targetUrl)] throws. *)
Definition safeUrl (u : option parsed_url) : safe_url :=
  match u with
  | None => SafeThrows
  | Some u =>
      if negb (String.eqb (url_protocol u) "http:"
               || String.eqb (url_protocol u) "https:")
      then SafeThrows
      else
        let host := JS.toLowerCase (url_hostname u) in
        let parts := path_parts (url_pathname u) in
        match
          (if String.eqb host "gist.github.com" then gist_raw parts else None)
        with
        | Some target => SafeRewritten target
        | None =>
            match
              (if String.eqb host "github.com" then github_raw parts else None)
            with
            | Some target => SafeRewritten target
            | None => SafeSame
            end
        end
  end.

(** The path of a file page on GitHub. *)
Definition blob_pathname (user repo branch : string) (path : list string)
    : string :=
  String "/"%char (join_with "/"%char (user :: repo :: "blob" :: branch :: path)).

Definition url_readme_page : parsed_url :=
  {| url_protocol := "https:"; url_hostname := "github.com";
     url_pathname := "/octo/tools/blob/main/docs/servers.json" |}.

Definition url_file_scheme : parsed_url :=
  {| url_protocol := "file:"; url_hostname := "";
     url_pathname := "/etc/passwd" |}.

(** ** The list of log files *)

(** [s.endsWith(suffix)] *)
Definition endsWith (s suffix : string) : bool :=
  String.prefix (String.rev suffix) (String.rev s).

(** [Logger.getAvailableLogFiles()]; [entries] is what [fs.readdirSync]
    returns, [None] when it throws, and then the method throws as well.
    [sort()] without a comparison function orders strings by their code
    units. *)
Definition getAvailableLogFiles (entries : option (list string))
    : option (list string) :=
  (λ files,
     reverse (merge_sort String.le
                (List.filter (λ file, endsWith file ".log") files)))
  <$> entries.

(** The string starts, or ends, with a white space character. *)
Definition starts_with_space (s : string) : bool :=
  match s with
  | String c _ => Ascii.is_space c
  | EmptyString => false
  end.

Definition ends_with_space (s : string) : bool :=
  starts_with_space (String.rev s).

Definition logs_directory : list string :=
  ["server-2025-01-09.log"; "notes.txt"; "server-2025-01-11.log";
   "server-2025-01-10.log"; "server.log.bak"].

(** ** The route [GET /stdio] and the tables *)

(** The upstream transports that [createTransport] builds with a header
    holder. *)
Definition carries_header_bag (kind : transport_kind) : bool :=
  match kind with
  | SSEClient | StreamableHTTPClient => true
  | _ => false
  end.

(** How the handler of [GET /stdio] ends: [createTransport] threw and the
    [catch] answers; the stderr listener is attached and the relay runs; or
    the upstream transport has no [stderr], the [on] call throws a
    [TypeError] and the [catch] runs after the tables were written. *)
Inductive stdio_end := StdioFailed | StdioRelaying | StdioNoStderr.

Record stdio_handled := {
  stdio_tables : registry;
  stdio_end_of : stdio_end;
}.

(** The handler of [GET /stdio] up to the start of the relay.  It takes the
    transport of what [createTransport] returns and not the header holder;
    [sessionId] is the id the new [SSEServerTransport] draws, [web_ref] and
    [server_ref] are the identities of the two transport objects. *)
Definition get_stdio_handler (JSON_parse : string → option json)
    (transportType : option string) (starts : bool) (req : request)
    (sessionId : string) (web_ref server_ref : ref) (reg : registry)
    : stdio_handled :=
  match createTransport JSON_parse transportType starts req with
  | CreateThrows => {| stdio_tables := reg; stdio_end_of := StdioFailed |}
  | Created kind _ =>
      let serverTransport :=
        {| transport_ref := server_ref; transport_kind_of := kind |} in
      let webAppTransport :=
        {| transport_ref := web_ref; transport_kind_of := SSEServer |} in
      let reg := stdio_register sessionId webAppTransport serverTransport reg in
      match kind with
      | StdioClient => {| stdio_tables := reg; stdio_end_of := StdioRelaying |}
      | _ => {| stdio_tables := reg; stdio_end_of := StdioNoStderr |}
      end
  end.

(** A session id is in every table that applies to it, or in none: in no
    table; or in both transport tables and, when its upstream transport was
    built with a header holder, in the header holder table as well. *)
Definition complete (sessionId : string) (reg : registry) : Prop :=
  absent sessionId reg
  ∨ ∃ web server,
      webAppTransports reg !! sessionId = Some web
      ∧ serverTransports reg !! sessionId = Some server
      ∧ (carries_header_bag (transport_kind_of server) = true →
         is_Some (sessionHeaderHolders reg !! sessionId)).

(** The steps that write the tables when [GET /stdio] is asked for a stdio
    transport only, and the other routes register the holder that
    [createTransport] built. *)
Inductive step_by_kind : registry → registry → Prop :=
  | by_kind_stdio sessionId web server reg :
      transport_kind_of server = StdioClient →
      step_by_kind reg (stdio_register sessionId web server reg)
  | by_kind_register sessionId web server headerHolder reg :
      (carries_header_bag (transport_kind_of server) = true →
       is_Some headerHolder) →
      step_by_kind reg (session_register sessionId web server headerHolder reg)
  | by_kind_remove sessionId reg :
      step_by_kind reg (session_remove sessionId reg).

Inductive reachable_by_kind : registry → Prop :=
  | by_kind_start : reachable_by_kind empty_registry
  | by_kind_step reg reg' :
      reachable_by_kind reg → step_by_kind reg reg' → reachable_by_kind reg'.

(** The lower-cased names a lookup on [req.headers] finds on
    [Object.prototype]. *)
Definition inherited_name (lowerCaseHeaderName : string) : bool :=
  String.eqb lowerCaseHeaderName "constructor"
  || String.eqb lowerCaseHeaderName "__proto__".

(** No string of the list names such a property. *)
Definition own_names_only (customHeaderNames : list json) : bool :=
  forallb (λ j, match j with
                | JString headerName =>
                    negb (inherited_name (JS.toLowerCase headerName))
                | _ => true
                end) customHeaderNames.

(** [Number.MAX_SAFE_INTEGER] *)
Definition MAX_SAFE_INTEGER : Z := 9007199254740991.

(** * Properties *)

(** ** The header bag *)

Section header_bag.

Implicit Types (cur new : header_record) (k : string).

Lemma delete_each_lookup keys cur k :
  delete_each keys cur !! k = if decide (k ∈ keys) then None else cur !! k.
Proof.
  unfold delete_each. revert cur.
  induction keys as [|key keys IH]; intros cur; simpl.
  - destruct (decide (k ∈ [])) as [Hin|_]; [|done].
    by apply not_elem_of_nil in Hin.
  - rewrite IH. destruct (decide (k ∈ keys)) as [Hin|Hnin].
    + destruct (decide (k ∈ key :: keys)) as [_|Hn]; [done|].
      exfalso. apply Hn. by right.
    + destruct (decide (k ∈ key :: keys)) as [[->|?]%elem_of_cons|Hn].
      * apply lookup_delete_eq.
      * done.
      * apply lookup_delete_ne. intros ->. apply Hn. left.
Qed.

Lemma Object_keys_elem cur k : k ∈ Object_keys cur ↔ is_Some (cur !! k).
Proof.
  unfold Object_keys. rewrite list_elem_of_fmap. split.
  - intros [[k' v] [-> Hin]]. apply elem_of_map_to_list in Hin. by exists v.
  - intros [v Hv]. exists (k, v). split; [done|].
    by apply elem_of_map_to_list.
Qed.

(** Deleting every key leaves the object empty. *)
Lemma delete_each_keys cur : delete_each (Object_keys cur) cur = ∅.
Proof.
  apply map_eq; intros k. rewrite delete_each_lookup, lookup_empty.
  case_decide as Hin; [done|].
  destruct (cur !! k) eqn:Hk; [|done].
  exfalso. apply Hin, Object_keys_elem. by rewrite Hk.
Qed.

Lemma Object_assign_lookup cur new k :
  Object_assign cur new !! k =
    match new !! k with Some v => Some v | None => cur !! k end.
Proof.
  unfold Object_assign.
  apply (map_fold_weak_ind (λ r m,
    r !! k = match m !! k with Some v => Some v | None => cur !! k end)).
  - by rewrite lookup_empty.
  - intros i x m r Hi IH. destruct (decide (i = k)) as [->|Hne].
    + by rewrite !lookup_insert_eq.
    + by rewrite !lookup_insert_ne.
Qed.

(** What a reader of the bag finds after the update, key by key. *)
Lemma updateHeadersInPlace_lookup cur new k :
  updateHeadersInPlace cur new !! k =
    match cur !! "Accept" with
    | Some a =>
        if JS.truthy a && bool_decide (k = "Accept") then Some a else new !! k
    | None => new !! k
    end.
Proof.
  unfold updateHeadersInPlace. rewrite delete_each_keys.
  assert (Hassign : Object_assign ∅ new !! k = new !! k).
  { rewrite Object_assign_lookup, lookup_empty. by destruct (new !! k). }
  destruct (cur !! "Accept") as [a|]; [|done].
  destruct (JS.truthy a); simpl; [|done].
  case_bool_decide as Hk.
  - subst k. by rewrite lookup_insert_eq.
  - by rewrite lookup_insert_ne.
Qed.

End header_bag.

(** A reader that holds the reference finds the updated bag, and no other
    holder changes. *)
Lemma updateHolder_lookup heap holder cur new :
  heap !! holder = Some cur →
  updateHolder heap holder new !! holder = Some (updateHeadersInPlace cur new)
  ∧ ∀ other, other ≠ holder →
      updateHolder heap holder new !! other = heap !! other.
Proof.
  intros Hcur. unfold updateHolder. rewrite Hcur. split.
  - apply lookup_insert_eq.
  - intros other Hne. by apply lookup_insert_ne.
Qed.

(** C1, at a concrete bag: the new header set supplies [Accept], and the
    value in the bag after the update is still the old one. *)
Lemma updateHeadersInPlace_new_accept_loses :
  bag_sse !! "Accept" = Some "text/event-stream"
  ∧ new_with_accept !! "Accept" = Some "application/json"
  ∧ updateHeadersInPlace bag_sse new_with_accept !! "Accept"
    = Some "text/event-stream".
Proof. vm_compute. done. Qed.

(** An empty [Accept] value is falsy: it is not restored. *)
Lemma updateHeadersInPlace_empty_accept_dropped :
  updateHeadersInPlace {[ "Accept" := "" ]} new_without_accept !! "Accept" = None.
Proof. by vm_compute. Qed.

(** A bag that holds a non-empty [Accept] holds the same one after any
    number of updates. *)
Lemma updateHeadersInPlace_accept_stable (cur : header_record) a updates :
  cur !! "Accept" = Some a → a ≠ "" →
  foldl updateHeadersInPlace cur updates !! "Accept" = Some a.
Proof.
  revert cur. induction updates as [|new updates IH]; intros cur Ha Hne; [done|].
  cbn. apply IH; [|done].
  rewrite updateHeadersInPlace_lookup, Ha.
  destruct a; [done|]. by rewrite bool_decide_eq_true_2.
Qed.

(** C1, as the code has it: a non-empty [Accept] value held by the bag is
    the value the bag holds after the update, whether or not the new header
    set supplies one; the new set decides the [Accept] entry only when the
    bag held none or an empty one; every other entry is the new set's. *)
Theorem updateHeadersInPlace_accept (cur new : header_record) :
  (∀ a, cur !! "Accept" = Some a → a ≠ "" →
     updateHeadersInPlace cur new !! "Accept" = Some a)
  ∧ (cur !! "Accept" = None ∨ cur !! "Accept" = Some "" →
     updateHeadersInPlace cur new !! "Accept" = new !! "Accept")
  ∧ (∀ k, k ≠ "Accept" → updateHeadersInPlace cur new !! k = new !! k).
Proof.
  split; [|split].
  - intros a Ha Hne. rewrite updateHeadersInPlace_lookup, Ha.
    destruct a; [done|]. by rewrite bool_decide_eq_true_2.
  - intros [Hc|Hc]; rewrite updateHeadersInPlace_lookup, Hc; done.
  - intros k Hk. rewrite updateHeadersInPlace_lookup.
    destruct (cur !! "Accept") as [a|]; [|done].
    rewrite (bool_decide_eq_false_2 _ Hk). by rewrite andb_false_r.
Qed.

Lemma updateHeadersInPlace_accept_witness :
  updateHeadersInPlace bag_sse new_without_accept !! "Accept"
    = Some "text/event-stream"
  ∧ updateHeadersInPlace bag_sse new_without_accept !! "authorization"
    = Some "Bearer upstream".
Proof.
  split.
  - apply (proj1 (updateHeadersInPlace_accept bag_sse new_without_accept));
      [reflexivity | discriminate].
  - rewrite (proj2 (proj2 (updateHeadersInPlace_accept bag_sse new_without_accept)));
      [reflexivity | discriminate].
Defined.

(** ** The forwardable header set *)

Section projection_facts.

Variable JSON_parse : string → option json.

Lemma proxy_private_excluded name key :
  proxy_private name = true →
  not_proxy_private (JS.toLowerCase key) = true →
  key ≠ name.
Proof.
  unfold proxy_private, not_proxy_private. intros Hp Hn ->.
  apply andb_true_iff in Hn as [H1 H2].
  apply negb_true_iff in H1, H2. rewrite H1, H2 in Hp. done.
Qed.

(** The first loop never writes a proxy-private name. *)
Lemma forward_loop_excludes (reqh : gmap string header_value) name :
  proxy_private name = true →
  map_fold forward_step ∅ reqh !! name = None.
Proof.
  intros Hp.
  apply (map_fold_weak_ind (λ r _, r !! name = None)); [done|].
  intros key value m r _ IH. unfold forward_step.
  destruct (forwarded_name _); [|done].
  destruct (not_proxy_private _) eqn:Hn; [|done].
  rewrite lookup_insert_ne; [done|].
  by apply proxy_private_excluded.
Qed.

(** Without the two meta-headers the forwardable set holds neither
    proxy-private header. *)
Lemma getHttpHeaders_excludes_without_meta req name :
  req_headers req !! "x-custom-auth-header" = None →
  req_headers req !! "x-custom-auth-headers" = None →
  proxy_private name = true →
  getHttpHeaders JSON_parse req !! name = None.
Proof.
  intros H1 H2 Hp. unfold getHttpHeaders, custom_auth_headers, custom_auth_header.
  rewrite H1, H2. by apply forward_loop_excludes.
Qed.

(** C2, at a request the proxy can receive: the legacy meta-header names
    the proxy's own auth header, and the forwardable set then carries the
    proxy's bearer credential under that name. *)
Theorem getHttpHeaders_forwards_proxy_auth :
  proxy_private "x-mcp-proxy-auth" = true
  ∧ getHttpHeaders JSON_parse request_naming_proxy_auth !! "x-mcp-proxy-auth"
    = Some "Bearer s3cret".
Proof. vm_compute. done. Qed.

(** The same for the session id header, under the spelling the client
    chose. *)
Lemma getHttpHeaders_forwards_session_id :
  proxy_private "Mcp-Session-Id" = true
  ∧ getHttpHeaders JSON_parse request_naming_session_id !! "Mcp-Session-Id"
    = Some "5f0c".
Proof. vm_compute. done. Qed.

End projection_facts.

(** ** The auth gate *)

Section auth_facts.

Implicit Types (a b : list N) (cfg : config) (req : request).

Lemma accumulate_diff_zero a b acc :
  length a = length b →
  accumulate_diff a b acc = 0%N ↔ acc = 0%N ∧ a = b.
Proof.
  revert b acc. induction a as [|x a IH]; intros [|y b] acc Hlen;
    simplify_eq/=.
  - split; [by intros ->|by intros [-> _]].
  - rewrite IH by done. rewrite N.lor_eq_0_iff, N.lxor_eq_0_iff. split.
    + by intros [[-> ->] ->].
    + intros [-> [= -> ->]]. done.
Qed.

(** On buffers of one length the comparison answers whether they are
    equal, and it does not throw. *)
Lemma timingSafeEqual_equal_length a b :
  length a = length b →
  timingSafeEqual a b = Some (bool_decide (a = b)).
Proof.
  intros Hlen. unfold timingSafeEqual.
  rewrite Hlen, Nat.eqb_refl. f_equal.
  destruct (N.eqb_spec (accumulate_diff a b 0) 0) as [Hz|Hz].
  - apply accumulate_diff_zero in Hz as [_ ->]; [|done].
    by rewrite bool_decide_eq_true_2.
  - rewrite bool_decide_eq_false_2; [done|].
    intros ->. apply Hz. by apply accumulate_diff_zero.
Qed.

Lemma falsy_not_bearer value :
  JS.truthy value = false → JS.startsWith value "Bearer " = false.
Proof. by destruct value. Qed.

Lemma bearer_truthy token : JS.truthy ("Bearer " +:+ token) = true.
Proof. reflexivity. Qed.

Lemma bearer_startsWith token :
  JS.startsWith ("Bearer " +:+ token) "Bearer " = true.
Proof. unfold JS.startsWith. cbv. by destruct token. Qed.

Lemma bearer_substring token : JS.substring_from 7 ("Bearer " +:+ token) = token.
Proof. reflexivity. Qed.

(** What the gate does with a header value that starts with [Bearer ]. *)
Lemma authMiddleware_bearer cfg req token :
  authDisabled cfg = false →
  authHeaderValue req = Some ("Bearer " +:+ token) →
  authMiddleware cfg req =
    let provided := Buffer_from token in
    let expected := Buffer_from (sessionToken cfg) in
    let lengths := OpCompareLengths (length provided) (length expected) in
    if bool_decide (length provided = length expected) then
      ([lengths; OpTimingSafeEqual (length provided)],
       if bool_decide (provided = expected) then Next else sendUnauthorized)
    else ([lengths], sendUnauthorized).
Proof.
  intros Hoff Hval. unfold authMiddleware. rewrite Hoff, Hval.
  rewrite bearer_truthy, bearer_startsWith, bearer_substring. cbn.
  destruct (Nat.eqb_spec (length (Buffer_from token))
              (length (Buffer_from (sessionToken cfg)))) as [Hlen|Hlen]; cbn.
  - rewrite bool_decide_eq_true_2 by done.
    rewrite timingSafeEqual_equal_length by done.
    by case_bool_decide.
  - by rewrite bool_decide_eq_false_2.
Qed.

(** The gate never reaches the case in which [timingSafeEqual] throws. *)
Lemma authMiddleware_never_throws cfg req : (authMiddleware cfg req).2 ≠ Throws.
Proof.
  unfold authMiddleware. destruct (authDisabled cfg); [done|].
  destruct (authHeaderValue req) as [value|]; [|done].
  destruct (negb (JS.truthy value) || negb (JS.startsWith value "Bearer "));
    [done|].
  cbv zeta.
  destruct (Nat.eqb_spec (length (Buffer_from (JS.substring_from 7 value)))
              (length (Buffer_from (sessionToken cfg)))) as [Hlen|Hlen];
    cbn [negb]; [|done].
  rewrite timingSafeEqual_equal_length by done.
  by case_bool_decide.
Qed.

End auth_facts.

(** C3, at a concrete credential: a credential shorter than the secret is
    rejected right after the lengths are compared; the request never
    reaches [timingSafeEqual]. *)
Lemma authMiddleware_rejects_on_length_first :
  authMiddleware config_s3cret (bearer_request "s3c")
    = ([OpCompareLengths 3 6], sendUnauthorized)
  ∧ ∀ size,
      OpTimingSafeEqual size ∉ (authMiddleware config_s3cret (bearer_request "s3c")).1.
Proof.
  split; [by vm_compute|].
  intros size Hin. vm_compute in Hin.
  apply elem_of_cons in Hin as [Hin|Hin]; [done|].
  by apply not_elem_of_nil in Hin.
Qed.

(** C3, as the code has it: the comparisons the gate makes depend on the
    provided credential through its byte length only.  Two credentials of
    one length lead to the same comparisons wherever their bytes differ;
    a credential of the secret's length always goes through one
    [timingSafeEqual] over the whole buffers, and a credential of another
    length is rejected after the length comparison alone. *)
Theorem authMiddleware_comparisons_by_length cfg req1 req2 token1 token2 :
  authDisabled cfg = false →
  authHeaderValue req1 = Some ("Bearer " +:+ token1) →
  authHeaderValue req2 = Some ("Bearer " +:+ token2) →
  length (Buffer_from token1) = length (Buffer_from token2) →
  (authMiddleware cfg req1).1 = (authMiddleware cfg req2).1
  ∧ (authMiddleware cfg req1).1 =
      let n := length (Buffer_from token1) in
      let secret := length (Buffer_from (sessionToken cfg)) in
      if bool_decide (n = secret)
      then [OpCompareLengths n secret; OpTimingSafeEqual n]
      else [OpCompareLengths n secret].
Proof.
  intros Hoff H1 H2 Hlen.
  rewrite (authMiddleware_bearer cfg req1 token1),
    (authMiddleware_bearer cfg req2 token2) by done.
  cbn zeta. rewrite <- Hlen.
  by case_bool_decide.
Qed.

Lemma authMiddleware_comparisons_by_length_witness :
  (authMiddleware config_s3cret (bearer_request "s3creX")).1
    = (authMiddleware config_s3cret (bearer_request "X3cret")).1.
Proof.
  apply (authMiddleware_comparisons_by_length config_s3cret
           (bearer_request "s3creX") (bearer_request "X3cret")
           "s3creX" "X3cret");
    reflexivity.
Defined.

(** C5: with auth enabled the gate answers 401 exactly when the credential
    is rejected in that sense, and otherwise calls [next()]; with auth
    disabled it calls [next()] on every request. *)
Theorem authMiddleware_unauthorized_iff (cfg : config) (req : request) :
  (authDisabled cfg = true → authMiddleware cfg req = ([], Next))
  ∧ (authDisabled cfg = false →
       ((authMiddleware cfg req).2 = Respond 401 "Unauthorized"
          ↔ credential_rejected cfg req)
       ∧ (¬ credential_rejected cfg req → (authMiddleware cfg req).2 = Next)).
Proof.
  split.
  - intros Hon. unfold authMiddleware. by rewrite Hon.
  - intros Hoff. unfold credential_rejected, authMiddleware.
    rewrite Hoff. destruct (authHeaderValue req) as [value|]; [|done].
    destruct (JS.truthy value) eqn:Htruthy; cbn [negb orb].
    2: { rewrite (falsy_not_bearer _ Htruthy). cbn. tauto. }
    destruct (JS.startsWith value "Bearer "); cbn [negb orb].
    2: { cbn. tauto. }
    cbv zeta.
    destruct (Nat.eqb_spec (length (Buffer_from (JS.substring_from 7 value)))
                (length (Buffer_from (sessionToken cfg)))) as [Hlen|Hlen];
      cbn [negb].
    2: { cbn. tauto. }
    rewrite timingSafeEqual_equal_length by done.
    case_bool_decide as Heq; cbn [snd].
    + split; [split; [done|]|].
      * intros [?|[?|?]]; done.
      * intros Hrej. done.
    + split; [split; [tauto|done]|].
      intros Hrej. exfalso. apply Hrej. tauto.
Qed.

Lemma authMiddleware_unauthorized_iff_witness :
  (authMiddleware config_s3cret (bearer_request "wrong!")).2
    = Respond 401 "Unauthorized".
Proof.
  apply (proj2 (authMiddleware_unauthorized_iff config_s3cret
                  (bearer_request "wrong!")) eq_refl).
  vm_compute. right. right. discriminate.
Defined.

(** ** The routes *)

Lemma run_chain_origin_first cfg req rest :
  (∃ ran, (run_chain cfg req (OriginValidation :: rest)).1
            = OriginValidation :: ran)
  ∧ (originValidationMiddleware cfg req ≠ Next →
     run_chain cfg req (OriginValidation :: rest)
       = ([OriginValidation], originValidationMiddleware cfg req)).
Proof.
  cbn. destruct (originValidationMiddleware cfg req) eqn:Ho.
  - destruct (run_chain cfg req rest) as [ran out]. split; [by exists ran|done].
  - split; [by exists []|done].
  - split; [by exists []|done].
Qed.

(** C4, at a concrete route: [GET /health] has no middleware, so a request
    the origin check rejects reaches its handler unchecked. *)
Lemma health_route_has_no_origin_check :
  health_route ∈ routes
  ∧ (OriginValidation ∉ route_chain health_route)
  ∧ originValidationMiddleware config_s3cret cross_origin_request
    = Respond 403 "Forbidden - invalid origin"
  ∧ run_chain config_s3cret cross_origin_request (route_chain health_route)
    = ([], Next).
Proof.
  split; [|split; [|split]].
  - unfold routes, health_route. do 6 right. left.
  - cbn. apply not_elem_of_nil.
  - by vm_compute.
  - reflexivity.
Qed.

(** C4, as the code has it: on every route but those left aside the
    origin check is the first middleware of the chain; it is the first to
    run on every request, and when it rejects the request nothing after it
    runs, the auth check included. *)
Theorem routes_origin_check_first (r : route) (cfg : config) (req : request) :
  r ∈ routes →
  route_path r ∉ unguarded_paths →
  (∃ rest, route_chain r = OriginValidation :: rest)
  ∧ (∃ ran, (run_chain cfg req (route_chain r)).1 = OriginValidation :: ran)
  ∧ (originValidationMiddleware cfg req ≠ Next →
     run_chain cfg req (route_chain r)
       = ([OriginValidation], originValidationMiddleware cfg req)).
Proof.
  intros Hin Hpath. unfold routes in Hin.
  repeat (apply elem_of_cons in Hin as [->|Hin]);
    try (by apply not_elem_of_nil in Hin);
    try (exfalso; apply Hpath; unfold unguarded_paths; cbn;
         repeat first [by left | right]; fail);
    cbn [route_chain];
    (split; [eexists; reflexivity | apply run_chain_origin_first]).
Qed.

Lemma routes_origin_check_first_witness :
  run_chain config_s3cret cross_origin_request (route_chain mcp_delete_route)
    = ([OriginValidation], Respond 403 "Forbidden - invalid origin").
Proof.
  refine (proj2 (proj2 (routes_origin_check_first mcp_delete_route
            config_s3cret cross_origin_request _ _)) _).
  - unfold routes, mcp_delete_route. do 2 right. left.
  - unfold unguarded_paths. cbn.
    intros Hin. repeat (apply elem_of_cons in Hin as [Hin|Hin]; [done|]).
    by apply not_elem_of_nil in Hin.
  - vm_compute. discriminate.
Defined.

(** ** The stderr classifier *)

(** The chain of tests is a first match in the keyword table. *)
Lemma classify_first_match chunk : classify chunk = classify_by_table chunk.
Proof.
  unfold classify, classify_by_table, keyword_table.
  cbn [List.find fst snd].
  repeat (destruct (JS.includes (JS.toUpperCase chunk) _); [reflexivity|]).
  reflexivity.
Qed.

(** C6, at a concrete line: an indented line that matches no keyword is
    sent as [info], but without its indentation. *)
Lemma classify_does_not_forward_verbatim :
  List.find (λ row, JS.includes (JS.toUpperCase "  hello world") row.1.1)
    keyword_table = None
  ∧ classify "  hello world" = (info, "hello world")
  ∧ (classify "  hello world").2 ≠ "  hello world".
Proof. vm_compute. done. Qed.

(** C6, as the code has it: a chunk without the fatal pattern is sent as
    one notification of logger [stdio] and the tables stay as they are; its
    level is that of the first keyword of the table (DEBUG, INFO, NOTICE,
    WARN, ERROR, CRITICAL, ALERT, EMERGENCY, then SIGINT, SIGHUP, SIGTERM)
    found in the upper-cased chunk, [info] when there is none; its message
    is the fixed text for the three signals and the trimmed chunk
    otherwise.  The three lines of the specification classify as stated. *)
Theorem stderr_on_data_classifies sessionId web server chunk reg :
  JS.includes chunk "MODULE_NOT_FOUND" = false →
  stderr_on_data sessionId web server chunk reg =
    (reg, [Send web {| log_level := (classify_by_table chunk).1;
                       log_logger := "stdio";
                       log_message := (classify_by_table chunk).2 |}])
  ∧ classify "ERROR: boom" = (error, "ERROR: boom")
  ∧ classify "SIGTERM received"
    = (emergency, "SIGTERM received. Server shutdown.")
  ∧ classify "hello world" = (info, "hello world").
Proof.
  intros Hfatal. split; [|by vm_compute].
  unfold stderr_on_data. rewrite Hfatal, <- classify_first_match.
  by destruct (classify chunk).
Qed.

Lemma stderr_on_data_classifies_witness :
  stderr_on_data "a1b2" web_sse child_stdio "warn: disk almost full
" registry_one_stdio =
    (registry_one_stdio,
     [Send web_sse {| log_level := warning; log_logger := "stdio";
                      log_message := "warn: disk almost full" |}]).
Proof.
  refine (proj1 (stderr_on_data_classifies "a1b2" web_sse child_stdio
            "warn: disk almost full
" registry_one_stdio _)).
  reflexivity.
Defined.

(** ** The session tables *)

Section registry_facts.

Implicit Types (reg : registry) (sid sessionId : string).

Lemma session_remove_absent sessionId reg :
  absent sessionId (session_remove sessionId reg).
Proof. repeat split; cbn; apply lookup_delete_eq. Qed.

Lemma session_remove_other sessionId sid reg :
  sid ≠ sessionId →
  webAppTransports (session_remove sessionId reg) !! sid
    = webAppTransports reg !! sid
  ∧ serverTransports (session_remove sessionId reg) !! sid
    = serverTransports reg !! sid
  ∧ sessionHeaderHolders (session_remove sessionId reg) !! sid
    = sessionHeaderHolders reg !! sid.
Proof. intros Hne. repeat split; cbn; by apply lookup_delete_ne. Qed.

Lemma stdio_register_registered sessionId web server reg :
  registered sessionId (stdio_register sessionId web server reg).
Proof. split; cbn; rewrite lookup_insert_eq; eauto. Qed.

Lemma stdio_register_other sessionId sid web server reg :
  sid ≠ sessionId →
  webAppTransports (stdio_register sessionId web server reg) !! sid
    = webAppTransports reg !! sid
  ∧ serverTransports (stdio_register sessionId web server reg) !! sid
    = serverTransports reg !! sid
  ∧ sessionHeaderHolders (stdio_register sessionId web server reg) !! sid
    = sessionHeaderHolders reg !! sid.
Proof. intros Hne. repeat split; cbn; by rewrite ?lookup_insert_ne. Qed.

Lemma session_register_registered sessionId web server headerHolder reg :
  registered sessionId (session_register sessionId web server headerHolder reg).
Proof.
  unfold session_register.
  destruct headerHolder; split; cbn; rewrite lookup_insert_eq; eauto.
Qed.

Lemma session_register_other sessionId sid web server headerHolder reg :
  sid ≠ sessionId →
  webAppTransports (session_register sessionId web server headerHolder reg) !! sid
    = webAppTransports reg !! sid
  ∧ serverTransports (session_register sessionId web server headerHolder reg) !! sid
    = serverTransports reg !! sid
  ∧ sessionHeaderHolders (session_register sessionId web server headerHolder reg) !! sid
    = sessionHeaderHolders reg !! sid.
Proof.
  intros Hne. unfold session_register.
  destruct headerHolder; repeat split; cbn; by rewrite ?lookup_insert_ne.
Qed.

(** A session created with a header holder is in the three tables when the
    registering code returns. *)
Lemma session_register_with_holder sessionId web server holder reg :
  let reg' := session_register sessionId web server (Some holder) reg in
  webAppTransports reg' !! sessionId = Some web
  ∧ serverTransports reg' !! sessionId = Some server
  ∧ sessionHeaderHolders reg' !! sessionId = Some holder.
Proof. repeat split; cbn; apply lookup_insert_eq. Qed.

(** Membership of a session id elsewhere is carried over when the three
    lookups are. *)
Lemma all_or_none_carried reg reg' sid :
  webAppTransports reg' !! sid = webAppTransports reg !! sid
  ∧ serverTransports reg' !! sid = serverTransports reg !! sid
  ∧ sessionHeaderHolders reg' !! sid = sessionHeaderHolders reg !! sid →
  registered sid reg ∨ absent sid reg →
  registered sid reg' ∨ absent sid reg'.
Proof.
  unfold registered, absent. intros (-> & -> & ->). done.
Qed.

Lemma step_all_or_none reg reg' :
  step reg reg' →
  (∀ sid, registered sid reg ∨ absent sid reg) →
  ∀ sid, registered sid reg' ∨ absent sid reg'.
Proof.
  intros Hstep Hinv sid.
  destruct Hstep as [sessionId web server reg
                    |sessionId web server headerHolder reg
                    |sessionId web server headerHolder reg
                    |sessionId reg|sessionId reg|sessionId reg];
    destruct (decide (sid = sessionId)) as [->|Hne].
  - left. apply stdio_register_registered.
  - eapply all_or_none_carried; [by apply stdio_register_other | apply Hinv].
  - left. apply session_register_registered.
  - eapply all_or_none_carried; [by apply session_register_other | apply Hinv].
  - left. apply session_register_registered.
  - eapply all_or_none_carried; [by apply session_register_other | apply Hinv].
  - right. apply session_remove_absent.
  - eapply all_or_none_carried; [by apply session_remove_other | apply Hinv].
  - right. apply session_remove_absent.
  - eapply all_or_none_carried; [by apply session_remove_other | apply Hinv].
  - right. apply session_remove_absent.
  - eapply all_or_none_carried; [by apply session_remove_other | apply Hinv].
Qed.

(** The two handlers that write the tables do so by a step. *)
Lemma delete_mcp_handler_step terminate_ok req reg :
  after (delete_mcp_handler terminate_ok req reg) = reg
  ∨ step reg (after (delete_mcp_handler terminate_ok req reg)).
Proof.
  unfold delete_mcp_handler.
  destruct (req_headers req !! "mcp-session-id") as [[sessionId|? ?]|];
    [|by left..].
  destruct (JS.truthy sessionId); [|by left].
  destruct (serverTransports reg !! sessionId) as [server|]; [|by left].
  destruct (transport_kind_of server); try by left.
  destruct terminate_ok; [|by left].
  right. apply step_delete_mcp.
Qed.

Lemma stderr_on_data_step sessionId web server chunk reg :
  (stderr_on_data sessionId web server chunk reg).1 = reg
  ∨ step reg (stderr_on_data sessionId web server chunk reg).1.
Proof.
  unfold stderr_on_data. destruct (JS.includes chunk "MODULE_NOT_FOUND").
  - right. apply step_stderr_fatal.
  - left. by destruct (classify chunk).
Qed.

End registry_facts.

(** Where every registration is made with the holder of its transport, and
    [GET /stdio] only for a stdio transport, every session id is in all the
    tables that apply to it or in none. *)
Lemma reachable_by_kind_complete (reg : registry) :
  reachable_by_kind reg → ∀ sid, complete sid reg.
Proof.
  induction 1 as [|reg reg' _ IH Hstep]; intros sid.
  { left. by repeat split. }
  assert (Hcarried : ∀ reg'',
    webAppTransports reg'' !! sid = webAppTransports reg !! sid →
    serverTransports reg'' !! sid = serverTransports reg !! sid →
    sessionHeaderHolders reg'' !! sid = sessionHeaderHolders reg !! sid →
    complete sid reg'').
  { intros reg'' Hw Hs Hh. unfold complete, absent. rewrite Hw, Hs, Hh.
    apply IH. }
  destruct Hstep as [sessionId web server reg Hkind
                    |sessionId web server headerHolder reg Hholder
                    |sessionId reg];
    destruct (decide (sid = sessionId)) as [->|Hne].
  - right. exists web, server. cbn. rewrite !lookup_insert_eq.
    split; [done|]. split; [done|]. by rewrite Hkind.
  - by apply Hcarried; apply stdio_register_other.
  - right. exists web, server.
    unfold session_register. destruct headerHolder as [holder|]; cbn.
    + rewrite !lookup_insert_eq. by split; [|split].
    + rewrite !lookup_insert_eq. split; [done|]. split; [done|].
      intros Hbag. by destruct (Hholder Hbag).
  - by apply Hcarried; apply session_register_other.
  - left. apply session_remove_absent.
  - by apply Hcarried; apply session_remove_other.
Qed.

(** C7, at a request the proxy can receive: [GET /stdio] asked for an [sse]
    transport.  [createTransport] builds the upstream transport with a
    header holder, the handler registers the session in the web-facing and
    in the upstream table and drops the holder, the missing [stderr] ends
    the handler in its [catch], and the id stays in two of its three
    tables. *)
Theorem get_stdio_leaves_holder_unregistered
    (JSON_parse : string → option json) :
  let result :=
    get_stdio_handler JSON_parse (Some "sse") true request_plain
      "a1b2" 3 4 empty_registry in
  (∃ bag, createTransport JSON_parse (Some "sse") true request_plain
          = Created SSEClient (Some bag))
  ∧ stdio_end_of result = StdioNoStderr
  ∧ webAppTransports (stdio_tables result) !! "a1b2"
    = Some {| transport_ref := 3; transport_kind_of := SSEServer |}
  ∧ serverTransports (stdio_tables result) !! "a1b2"
    = Some {| transport_ref := 4; transport_kind_of := SSEClient |}
  ∧ sessionHeaderHolders (stdio_tables result) !! "a1b2" = None
  ∧ ¬ complete "a1b2" (stdio_tables result).
Proof.
  cbv zeta. split; [eexists; reflexivity|].
  split; [reflexivity|]. split; [reflexivity|]. split; [reflexivity|].
  split; [reflexivity|].
  intros [(Hweb & _)|(web & server & _ & Hserver & Hbag)].
  - discriminate Hweb.
  - assert (Hkind : server = {| transport_ref := 4; transport_kind_of := SSEClient |}).
    { cbn in Hserver. rewrite lookup_insert_eq in Hserver. congruence. }
    subst server. destruct (Hbag eq_refl) as [holder Hholder].
    discriminate Hholder.
Qed.

(** C8, at a concrete session: [DELETE /mcp] for a registered
    streamable-HTTP session answers 200 and removes the id, and the only
    call it makes on a transport is [terminateSession] on the upstream one;
    neither transport is closed. *)
Lemma delete_mcp_closes_no_transport :
  let result := delete_mcp_handler true delete_request registry_one_http in
  response result = Some 200
  ∧ absent "5f0c" (after result)
  ∧ calls result = [TerminateSession upstream_http]
  ∧ (Close web_http ∉ calls result)
  ∧ (Close upstream_http ∉ calls result).
Proof.
  cbv zeta.
  assert (Hcalls : calls (delete_mcp_handler true delete_request registry_one_http)
                   = [TerminateSession upstream_http]) by by vm_compute.
  split; [by vm_compute|]. split; [by vm_compute|]. split; [done|].
  rewrite Hcalls. split; intros Hin;
    (apply elem_of_cons in Hin as [Hin|Hin];
      [done | by apply not_elem_of_nil in Hin]).
Qed.

(** C8, as the code has it: for a registered streamable-HTTP session whose
    upstream accepts the termination, [DELETE /mcp] calls [terminateSession]
    on the upstream transport and nothing else, removes the id from the
    three tables, leaves every other id as it was and answers 200; a second
    [DELETE] for the same id makes no call, changes no table and answers 404
    without throwing. *)
Theorem delete_mcp_removes_once (req : request) (reg : registry)
    (sid : string) (server : transport) (again_ok : bool) :
  req_headers req !! "mcp-session-id" = Some (HStr sid) →
  sid ≠ "" →
  serverTransports reg !! sid = Some server →
  transport_kind_of server = StreamableHTTPClient →
  let first := delete_mcp_handler true req reg in
  let second := delete_mcp_handler again_ok req (after first) in
  first = {| after := session_remove sid reg;
             calls := [TerminateSession server];
             response := Some 200 |}
  ∧ absent sid (after first)
  ∧ (∀ other, other ≠ sid →
       webAppTransports (after first) !! other = webAppTransports reg !! other
       ∧ serverTransports (after first) !! other = serverTransports reg !! other
       ∧ sessionHeaderHolders (after first) !! other
         = sessionHeaderHolders reg !! other)
  ∧ second = {| after := after first; calls := []; response := Some 404 |}.
Proof.
  intros Hreq Hsid Hserver Hkind first second.
  assert (Htruthy : JS.truthy sid = true) by by destruct sid.
  assert (Hfirst : first = {| after := session_remove sid reg;
                              calls := [TerminateSession server];
                              response := Some 200 |}).
  { unfold first, delete_mcp_handler.
    by rewrite Hreq, Htruthy, Hserver, Hkind. }
  split; [done|]. rewrite Hfirst. cbn [after].
  split; [apply session_remove_absent|].
  split; [intros other Hne; by apply session_remove_other|].
  unfold second. rewrite Hfirst. cbn [after].
  unfold delete_mcp_handler. rewrite Hreq, Htruthy.
  destruct (session_remove_absent sid reg) as (_ & -> & _). done.
Qed.

Lemma delete_mcp_removes_once_witness :
  delete_mcp_handler false delete_request
    (after (delete_mcp_handler true delete_request registry_one_http))
  = {| after := after (delete_mcp_handler true delete_request registry_one_http);
       calls := []; response := Some 404 |}.
Proof.
  refine (proj2 (proj2 (proj2 (delete_mcp_removes_once delete_request
            registry_one_http "5f0c" upstream_http false _ _ _ _)))).
  - reflexivity.
  - discriminate.
  - reflexivity.
  - reflexivity.
Defined.

(** C9: a chunk of the child's error stream that holds the fatal pattern
    makes the handler send one emergency notification to the web-facing
    transport, close the web-facing and then the upstream transport, and
    remove the session id from the three tables; the other sessions stay. *)
Theorem stderr_on_data_fatal_teardown (sessionId : string)
    (web server : transport) (chunk : string) (reg : registry) :
  JS.includes chunk "MODULE_NOT_FOUND" = true →
  let '(reg', made) := stderr_on_data sessionId web server chunk reg in
  made = [Send web {| log_level := emergency; log_logger := "proxy";
                      log_message := "Command not found, transports removed" |};
          Close web; Close server]
  ∧ absent sessionId reg'
  ∧ (∀ other, other ≠ sessionId →
       webAppTransports reg' !! other = webAppTransports reg !! other
       ∧ serverTransports reg' !! other = serverTransports reg !! other
       ∧ sessionHeaderHolders reg' !! other = sessionHeaderHolders reg !! other).
Proof.
  intros Hfatal. unfold stderr_on_data. rewrite Hfatal.
  split; [done|]. split; [apply session_remove_absent|].
  intros other Hne. by apply session_remove_other.
Qed.

Lemma stderr_on_data_fatal_teardown_witness :
  absent "a1b2"
    (stderr_on_data "a1b2" web_sse child_stdio module_not_found_chunk
       registry_one_stdio).1.
Proof.
  pose proof (stderr_on_data_fatal_teardown "a1b2" web_sse child_stdio
                module_not_found_chunk registry_one_stdio eq_refl) as H.
  destruct (stderr_on_data "a1b2" web_sse child_stdio module_not_found_chunk
              registry_one_stdio) as [reg' made].
  exact (proj1 (proj2 H)).
Defined.

(** C10: a [DELETE /mcp] request that passes the origin check and the auth
    check and has no [mcp-session-id] header gets no response: the handler
    returns with the tables unchanged, no call made and nothing sent. *)
Theorem delete_mcp_without_session_id (cfg : config) (terminate_ok : bool)
    (req : request) (reg : registry) :
  originValidationMiddleware cfg req = Next →
  (authMiddleware cfg req).2 = Next →
  req_headers req !! "mcp-session-id" = None →
  delete_mcp cfg terminate_ok req reg
    = {| after := reg; calls := []; response := None |}.
Proof.
  intros Horigin Hauth Hsid. unfold delete_mcp. cbn.
  rewrite Horigin, Hauth. unfold delete_mcp_handler. by rewrite Hsid.
Qed.

Lemma delete_mcp_without_session_id_witness :
  delete_mcp config_s3cret true (bearer_request "s3cret") registry_one_http
    = {| after := registry_one_http; calls := []; response := None |}.
Proof.
  apply delete_mcp_without_session_id; reflexivity.
Defined.

(** * Further properties of the gate, the guard and the routes *)

Section gate_facts.

Implicit Types (cfg : config) (req : request) (s p : string).

Lemma N_of_ascii_inj (c1 c2 : ascii) : N_of_ascii c1 = N_of_ascii c2 → c1 = c2.
Proof.
  intros H. rewrite <- (ascii_N_embedding c1), <- (ascii_N_embedding c2).
  by rewrite H.
Qed.

(** The bytes of one code unit tell the code unit and where it ends. *)
Lemma utf8_unit_app_inj (c1 c2 : ascii) (b1 b2 : list N) :
  (utf8_unit c1 ++ b1 = utf8_unit c2 ++ b2)%list → c1 = c2 ∧ b1 = b2.
Proof.
  unfold utf8_unit.
  pose proof (N_ascii_bounded c1) as Hb1. pose proof (N_ascii_bounded c2) as Hb2.
  destruct (N.ltb_spec (N_of_ascii c1) 128) as [H1|H1];
    destruct (N.ltb_spec (N_of_ascii c2) 128) as [H2|H2];
    cbn; intros Heq; simplify_eq.
  - split; [by apply N_of_ascii_inj | done].
  - exfalso. pose proof (N.le_0_l (N_of_ascii c2 / 64)). lia.
  - exfalso. pose proof (N.le_0_l (N_of_ascii c1 / 64)). lia.
  - split; [|done]. apply N_of_ascii_inj.
    rewrite (N.div_mod (N_of_ascii c1) 64), (N.div_mod (N_of_ascii c2) 64) by done.
    lia.
Qed.

(** Two strings with the same bytes are the same string. *)
Lemma Buffer_from_inj s1 s2 : Buffer_from s1 = Buffer_from s2 → s1 = s2.
Proof.
  revert s2. induction s1 as [|c1 s1 IH]; intros [|c2 s2]; cbn; intros Heq.
  - done.
  - exfalso. unfold utf8_unit in Heq.
    destruct (N_of_ascii c2 <? 128)%N; discriminate.
  - exfalso. unfold utf8_unit in Heq.
    destruct (N_of_ascii c1 <? 128)%N; discriminate.
  - apply utf8_unit_app_inj in Heq as [-> Heq]. f_equal. by apply IH.
Qed.

(** A string that starts with [p] is [p] followed by what
    [substring(length p)] keeps. *)
Lemma startsWith_split s p :
  JS.startsWith s p = true → s = p +:+ JS.substring_from (String.length p) s.
Proof.
  unfold JS.startsWith. revert s.
  induction p as [|a p IH]; intros s Hp; [done|].
  destruct s as [|b s]; [done|]. cbn in Hp.
  destruct (ascii_dec a b) as [->|]; [|done].
  cbn. unfold String.app. cbn. f_equal. by apply IH.
Qed.

Lemma app_cons_string (a : ascii) s t : String a s +:+ t = String a (s +:+ t).
Proof. reflexivity. Qed.

Lemma app_empty_r s : s +:+ "" = s.
Proof. induction s as [|a s IH]; [done|]. by rewrite app_cons_string, IH. Qed.

Lemma rev_app_rev_app s1 s2 s3 :
  String.rev_app (String.rev_app s1 s2) s3 = String.rev_app s2 (s1 +:+ s3).
Proof.
  revert s2 s3. induction s1 as [|a s1 IH]; intros s2 s3; [done|].
  cbn. by rewrite IH.
Qed.

Lemma rev_rev_app s : String.rev (String.rev_app s "") = s.
Proof. unfold String.rev. rewrite rev_app_rev_app. cbn. apply app_empty_r. Qed.

(** Splitting reads a comma-free piece into the accumulator. *)
Lemma split_comma_go_piece cur x s :
  comma_free x = true →
  JS.split_comma_go cur (x +:+ s) = JS.split_comma_go (String.rev_app x cur) s.
Proof.
  revert cur. induction x as [|c x IH]; intros cur Hfree; [done|].
  cbn in Hfree. apply andb_true_iff in Hfree as [Hc Hfree].
  apply negb_true_iff in Hc. rewrite app_cons_string. cbn. rewrite Hc.
  by apply IH.
Qed.

(** Splitting what [join(",")] built from comma-free entries gives the
    entries back. *)
Lemma split_comma_join entries :
  entries ≠ [] →
  Forall (λ x, comma_free x = true) entries →
  JS.split_comma (JS.join_comma entries) = entries.
Proof.
  unfold JS.split_comma.
  induction entries as [|x entries IH]; intros Hne Hfree; [done|].
  apply Forall_cons in Hfree as [Hx Hfree].
  destruct entries as [|y entries].
  - cbn [JS.join_comma]. rewrite <- (app_empty_r x) at 1.
    rewrite split_comma_go_piece by done. cbn. by rewrite rev_rev_app.
  - change (JS.join_comma (x :: y :: entries))
      with (x +:+ String ","%char (JS.join_comma (y :: entries))).
    rewrite split_comma_go_piece by done. cbn [JS.split_comma_go].
    cbn [Ascii.eqb Bool.eqb]. rewrite rev_rev_app. f_equal. by apply IH.
Qed.

(** With auth enabled, a request that the gate lets through carries the
    token. *)
Lemma authMiddleware_next_bearer cfg req :
  authDisabled cfg = false →
  (authMiddleware cfg req).2 = Next →
  authHeaderValue req = Some ("Bearer " +:+ sessionToken cfg).
Proof.
  intros Hoff. unfold authMiddleware. rewrite Hoff.
  destruct (authHeaderValue req) as [value|]; [|done].
  destruct (JS.truthy value); cbn [negb orb]; [|done].
  destruct (JS.startsWith value "Bearer ") eqn:Hstart; cbn [negb orb]; [|done].
  cbv zeta.
  destruct (Nat.eqb_spec (length (Buffer_from (JS.substring_from 7 value)))
              (length (Buffer_from (sessionToken cfg)))) as [Hlen|Hlen];
    cbn [negb]; [|done].
  rewrite timingSafeEqual_equal_length by done.
  case_bool_decide as Heq; [|done]. intros _.
  apply Buffer_from_inj in Heq.
  apply startsWith_split in Hstart. cbn [String.length] in Hstart.
  by rewrite Hstart, Heq.
Qed.

(** A chain that reaches the handler has run every middleware, and each
    one called [next()]. *)
Lemma run_chain_next cfg req chain :
  (run_chain cfg req chain).2 = Next →
  (run_chain cfg req chain).1 = chain
  ∧ ∀ m, m ∈ chain → run_middleware cfg req m = Next.
Proof.
  induction chain as [|m chain IH]; cbn.
  - intros _. split; [done|]. intros m Hm. by apply not_elem_of_nil in Hm.
  - destruct (run_middleware cfg req m) eqn:Hm; [|done..].
    destruct (run_chain cfg req chain) as [ran out]. cbn in *.
    intros Hout. destruct (IH Hout) as [-> Hall]. split; [done|].
    intros m' [->|Hin]%elem_of_cons; [done | by apply Hall].
Qed.

Lemma run_chain_all_next cfg req chain :
  (∀ m, m ∈ chain → run_middleware cfg req m = Next) →
  run_chain cfg req chain = (chain, Next).
Proof.
  induction chain as [|m chain IH]; intros Hall; cbn; [done|].
  rewrite (Hall m) by left. rewrite IH; [done|].
  intros m' Hm'. apply Hall. by right.
Qed.

End gate_facts.

(** X1: with auth enabled, the gate lets a request through exactly when the
    value of its [x-mcp-proxy-auth] header (the first one, when sent several
    times) is the text [Bearer ] followed by the session token. *)
Theorem authMiddleware_passes_exactly_the_token (cfg : config) (req : request) :
  authDisabled cfg = false →
  ((authMiddleware cfg req).2 = Next
   ↔ authHeaderValue req = Some ("Bearer " +:+ sessionToken cfg)).
Proof.
  intros Hoff. split; [by apply authMiddleware_next_bearer|].
  intros Hval. rewrite (authMiddleware_bearer cfg req (sessionToken cfg)) by done.
  cbv zeta. by rewrite !bool_decide_eq_true_2.
Qed.

Lemma authMiddleware_passes_exactly_the_token_witness :
  (authMiddleware config_s3cret (bearer_request "s3cret")).2 = Next.
Proof.
  apply (authMiddleware_passes_exactly_the_token config_s3cret
           (bearer_request "s3cret") eq_refl).
  reflexivity.
Defined.

(** X2: when [ALLOWED_ORIGINS] is not set, the origin guard lets a request
    through exactly when it has no [Origin] header, an empty one, or the one
    origin [http://localhost:<CLIENT_PORT>] (port 6274 when [CLIENT_PORT] is
    unset or empty); every other request is answered 403. *)
Theorem originValidationMiddleware_default (cfg : config) (req : request) :
  ALLOWED_ORIGINS cfg = None →
  (originValidationMiddleware cfg req = Next
   ↔ req_headers req !! "origin" = None
     ∨ req_headers req !! "origin" = Some (HStr "")
     ∨ req_headers req !! "origin" = Some (HStr (default_origin cfg)))
  ∧ (originValidationMiddleware cfg req = Next
     ∨ originValidationMiddleware cfg req
       = Respond 403 "Forbidden - invalid origin").
Proof.
  intros Hnone. unfold originValidationMiddleware. rewrite Hnone.
  fold (default_origin cfg).
  destruct (req_headers req !! "origin") as [[o|first rest]|].
  - destruct o as [|c o]; cbn [JS.truthy andb].
    { split; [|by left]. split; [by right; left | done]. }
    case_bool_decide as Hin; cbn [negb].
    + apply list_elem_of_singleton in Hin as ->.
      split; [|by left]. split; [by right; right | done].
    + split; [|by right]. split; [done|].
      intros [?|[?|Heq]]; [done..|].
      exfalso. apply Hin. apply list_elem_of_singleton. congruence.
  - split; [|by right]. split; [done|]. by intros [?|[?|?]].
  - split; [|by left]. split; [by left | done].
Qed.

Lemma originValidationMiddleware_default_witness :
  originValidationMiddleware config_s3cret (request_from "http://localhost:6274")
    = Next.
Proof.
  apply (proj1 (originValidationMiddleware_default config_s3cret
                  (request_from "http://localhost:6274") eq_refl)).
  right. right. reflexivity.
Defined.

(** X3: when [ALLOWED_ORIGINS] lists comma-free entries separated by
    commas, a non-empty [Origin] passes exactly when it is one of the entries
    as written, and is answered 403 otherwise; the localhost default is then
    allowed only if it is listed. *)
Theorem originValidationMiddleware_configured (cfg : config) (req : request)
    (entries : list string) (o : string) :
  ALLOWED_ORIGINS cfg = Some (JS.join_comma entries) →
  entries ≠ [] →
  Forall (λ x, comma_free x = true) entries →
  req_headers req !! "origin" = Some (HStr o) →
  o ≠ "" →
  (originValidationMiddleware cfg req = Next ↔ o ∈ entries)
  ∧ (o ∉ entries →
     originValidationMiddleware cfg req
       = Respond 403 "Forbidden - invalid origin").
Proof.
  intros Hlist Hne Hfree Ho Hnonempty. unfold originValidationMiddleware.
  rewrite Hlist, Ho, split_comma_join by done.
  destruct o as [|c o]; [done|]. cbn [JS.truthy andb].
  case_bool_decide as Hin; cbn [negb]; split; done.
Qed.

Lemma originValidationMiddleware_configured_witness :
  originValidationMiddleware config_two_origins
    (request_from "https://inspector.example") = Next.
Proof.
  apply (proj1 (originValidationMiddleware_configured config_two_origins
                  (request_from "https://inspector.example")
                  ["http://localhost:6274"; "https://inspector.example"]
                  "https://inspector.example" eq_refl
                  ltac:(discriminate)
                  ltac:(repeat constructor)
                  eq_refl
                  ltac:(discriminate))).
  right. left.
Defined.

(** X4: on every route whose chain has the auth check, with auth enabled,
    the handler is reached only by a request that passed the origin guard
    and carries [Bearer ] followed by the session token. *)
Theorem guarded_route_needs_token (r : route) (cfg : config) (req : request) :
  r ∈ routes →
  Auth ∈ route_chain r →
  authDisabled cfg = false →
  (run_chain cfg req (route_chain r)).2 = Next →
  originValidationMiddleware cfg req = Next
  ∧ authHeaderValue req = Some ("Bearer " +:+ sessionToken cfg).
Proof.
  intros Hin Hauth Hoff Hnext.
  apply run_chain_next in Hnext as [_ Hall].
  split.
  - apply (Hall OriginValidation).
    unfold routes in Hin.
    repeat (apply elem_of_cons in Hin as [->|Hin]);
      try (by apply not_elem_of_nil in Hin);
      cbn [route_chain] in *; try (by left);
      exfalso;
      repeat (apply elem_of_cons in Hauth as [Hauth|Hauth]; [done|]);
      by apply not_elem_of_nil in Hauth.
  - apply authMiddleware_next_bearer; [done|]. by apply (Hall Auth).
Qed.

Lemma guarded_route_needs_token_witness :
  authHeaderValue (bearer_request "s3cret") = Some ("Bearer " +:+ "s3cret").
Proof.
  refine (proj2 (guarded_route_needs_token mcp_delete_route config_s3cret
                   (bearer_request "s3cret") _ _ eq_refl eq_refl)).
  - unfold routes, mcp_delete_route. do 2 right. left.
  - cbn. right. left.
Defined.

(** X5: the six routes registered without the auth check ([/health],
    [/servers], [/servers/:serverName/tools], [/execute-tool],
    [/logs/current], [/logs/:filename]) reach their handler for every
    request that passes the origin guard and has a parsable body, whatever
    its credentials and also with auth enabled. *)
Theorem unauthenticated_route_reaches_handler (r : route) (cfg : config)
    (req : request) :
  r ∈ routes →
  route_path r ∈ unauthenticated_paths →
  originValidationMiddleware cfg req = Next →
  req_body_parses req = true →
  run_chain cfg req (route_chain r) = (route_chain r, Next).
Proof.
  intros Hin Hpath Horigin Hbody.
  apply run_chain_all_next. intros m Hm.
  assert (Hno : m ≠ Auth).
  { intros ->. unfold routes in Hin.
    repeat (apply elem_of_cons in Hin as [->|Hin]);
      try (by apply not_elem_of_nil in Hin);
      cbn [route_chain route_path] in *;
      try (repeat (apply elem_of_cons in Hm as [Hm|Hm]; [done|]);
           by apply not_elem_of_nil in Hm);
      unfold unauthenticated_paths in Hpath;
      repeat (apply elem_of_cons in Hpath as [Hpath|Hpath]; [done|]);
      by apply not_elem_of_nil in Hpath. }
  destruct m; cbn; [done | done | by rewrite Hbody].
Qed.

Lemma unauthenticated_route_reaches_handler_witness :
  run_chain config_s3cret (make_request []) (route_chain execute_tool_route)
    = ([OriginValidation; ExpressJson], Next).
Proof.
  apply (unauthenticated_route_reaches_handler execute_tool_route
           config_s3cret (make_request [])).
  - unfold routes, execute_tool_route. do 13 right. left.
  - unfold unauthenticated_paths. cbn. do 3 right. left.
  - reflexivity.
  - reflexivity.
Defined.

(** * Further properties of the header projection *)

Section projection_more.

Variable JSON_parse : string → option json.

Implicit Types (reqh : gmap string header_value) (h : header_record).

(** What the first loop leaves under each name. *)
Lemma forward_loop_lookup reqh key :
  map_fold forward_step ∅ reqh !! key =
    if forwarded_name (JS.toLowerCase key)
       && not_proxy_private (JS.toLowerCase key)
    then last_value <$> reqh !! key
    else None.
Proof.
  apply (map_fold_weak_ind (λ r m,
    r !! key = if forwarded_name (JS.toLowerCase key)
                  && not_proxy_private (JS.toLowerCase key)
               then last_value <$> m !! key else None)).
  - rewrite !lookup_empty. by destruct (_ && _).
  - intros i x m r Hi IH. unfold forward_step.
    destruct (decide (i = key)) as [->|Hne].
    + rewrite lookup_insert_eq.
      destruct (forwarded_name _); cbn [andb].
      * destruct (not_proxy_private _); [by rewrite lookup_insert_eq|].
        by rewrite IH.
      * by rewrite IH.
    + rewrite (lookup_insert_ne m) by done. rewrite <- IH.
      destruct (forwarded_name (JS.toLowerCase i)); [|done].
      destruct (not_proxy_private (JS.toLowerCase i)); [|done].
      by rewrite lookup_insert_ne.
Qed.

Lemma from_request_insert reqh h name hv :
  from_request reqh h →
  reqh !! JS.toLowerCase name = Some hv →
  from_request reqh (<[name := last_value hv]> h).
Proof.
  intros Hh Hname k v. destruct (decide (name = k)) as [->|Hne].
  - rewrite lookup_insert_eq. intros [= <-]. exists hv. by split; [right|].
  - rewrite lookup_insert_ne by done. apply Hh.
Qed.

Lemma from_request_loop reqh : from_request reqh (map_fold forward_step ∅ reqh).
Proof.
  intros k v. rewrite forward_loop_lookup. destruct (_ && _); [|done].
  destruct (reqh !! k) as [hv|] eqn:Hk; [|done].
  intros [= <-]. exists hv. by split; [left|].
Qed.

Lemma from_request_custom_one reqh h :
  from_request reqh h → from_request reqh (custom_auth_header reqh h).
Proof.
  intros Hh. unfold custom_auth_header.
  destruct (reqh !! "x-custom-auth-header") as [[name|? ?]|]; [|done..].
  destruct (reqh !! JS.toLowerCase name) eqn:Hname; [|done].
  by apply from_request_insert.
Qed.

Lemma from_request_forEach reqh names h :
  from_request reqh h → from_request reqh (custom_names_forEach reqh names h).
Proof.
  revert h. induction names as [|j names IH]; intros h Hh; [done|].
  destruct j; try done. cbn. apply IH.
  destruct (reqh !! JS.toLowerCase s) eqn:Hname; [|done].
  by apply from_request_insert.
Qed.

(** An entry that agrees with the request stays through the custom names. *)
Lemma custom_names_forEach_keeps reqh names h name hv :
  reqh !! JS.toLowerCase name = Some hv →
  h !! name = Some (last_value hv) →
  custom_names_forEach reqh names h !! name = Some (last_value hv).
Proof.
  intros Hname. revert h. induction names as [|j names IH]; intros h Hh; [done|].
  destruct j; try done. cbn. apply IH.
  destruct (reqh !! JS.toLowerCase s) as [hv'|] eqn:Hs; [|done].
  destruct (decide (s = name)) as [->|Hne].
  - rewrite lookup_insert_eq. congruence.
  - by rewrite lookup_insert_ne.
Qed.

(** A header the client declares among string names is forwarded. *)
Lemma custom_names_forEach_adds reqh (names : list string) h name hv :
  name ∈ names →
  reqh !! JS.toLowerCase name = Some hv →
  custom_names_forEach reqh (JString <$> names) h !! name
    = Some (last_value hv).
Proof.
  intros Hin Hname. revert h.
  induction names as [|n names IH]; intros h; [by apply not_elem_of_nil in Hin|].
  cbn. destruct (decide (n = name)) as [->|Hne].
  - rewrite Hname. apply custom_names_forEach_keeps; [done|].
    apply lookup_insert_eq.
  - apply IH. by apply elem_of_cons in Hin as [->|Hin].
Qed.

(** What the first loop forwards stays under the custom names, when the
    request names are in lower case. *)
Lemma forward_loop_kept reqh h key v :
  lowercase_names reqh →
  map_fold forward_step ∅ reqh !! key = Some v →
  ∃ hv, reqh !! JS.toLowerCase key = Some hv ∧ v = last_value hv.
Proof.
  intros Hlower. rewrite forward_loop_lookup. destruct (_ && _); [|done].
  destruct (reqh !! key) as [hv|] eqn:Hk; [|done]. intros [= <-].
  exists hv. split; [|done]. rewrite Hlower; [done|]. by rewrite Hk.
Qed.

Lemma custom_auth_header_keeps reqh h name hv :
  reqh !! JS.toLowerCase name = Some hv →
  h !! name = Some (last_value hv) →
  custom_auth_header reqh h !! name = Some (last_value hv).
Proof.
  intros Hname Hh. unfold custom_auth_header.
  destruct (reqh !! "x-custom-auth-header") as [[n|? ?]|]; [|done..].
  destruct (reqh !! JS.toLowerCase n) as [hv'|] eqn:Hn; [|done].
  destruct (decide (n = name)) as [->|Hne].
  - rewrite lookup_insert_eq. congruence.
  - by rewrite lookup_insert_ne.
Qed.

Lemma custom_auth_headers_keeps reqh h name hv :
  reqh !! JS.toLowerCase name = Some hv →
  h !! name = Some (last_value hv) →
  custom_auth_headers JSON_parse reqh h !! name = Some (last_value hv).
Proof.
  intros Hname Hh. unfold custom_auth_headers.
  destruct (reqh !! "x-custom-auth-headers") as [raw|]; [|done].
  destruct (JSON_parse (value_to_string raw)) as [[]|]; try done.
  by apply custom_names_forEach_keeps.
Qed.

(** X6: for a request without the two meta-headers, the forwardable set
    holds under each name the last value of the request header of that name
    when its lower-cased name starts with [mcp-], is [authorization] or is
    [last-event-id], and is neither [x-mcp-proxy-auth] nor [mcp-session-id];
    it holds nothing under any other name. *)
Theorem getHttpHeaders_without_meta (req : request) (key : string) :
  req_headers req !! "x-custom-auth-header" = None →
  req_headers req !! "x-custom-auth-headers" = None →
  getHttpHeaders JSON_parse req !! key =
    if forwarded_name (JS.toLowerCase key)
       && not_proxy_private (JS.toLowerCase key)
    then last_value <$> req_headers req !! key
    else None.
Proof.
  intros H1 H2. unfold getHttpHeaders, custom_auth_headers, custom_auth_header.
  rewrite H1, H2. apply forward_loop_lookup.
Qed.

(** X7: the forwardable set holds no invented value: when no name listed
    in [x-custom-auth-headers] lower-cases to [constructor] or [__proto__]
    (names a JavaScript lookup finds on [Object.prototype]), each entry of
    the set is the last value of a request header with the same name, as
    written or in lower case. *)
Theorem getHttpHeaders_values_from_request (req : request) (k v : string) :
  (∀ raw customHeaderNames,
     req_headers req !! "x-custom-auth-headers" = Some raw →
     JSON_parse (value_to_string raw) = Some (JArray customHeaderNames) →
     own_names_only customHeaderNames = true) →
  getHttpHeaders JSON_parse req !! k = Some v →
  ∃ hv, (req_headers req !! k = Some hv
         ∨ req_headers req !! JS.toLowerCase k = Some hv)
        ∧ v = last_value hv.
Proof.
  intros _. revert k v.
  change (from_request (req_headers req) (getHttpHeaders JSON_parse req)).
  unfold getHttpHeaders, custom_auth_headers.
  destruct (req_headers req !! "x-custom-auth-headers") as [raw|].
  - destruct (JSON_parse (value_to_string raw)) as [[]|];
      try (apply from_request_custom_one, from_request_loop).
    apply from_request_forEach, from_request_custom_one, from_request_loop.
  - apply from_request_custom_one, from_request_loop.
Qed.

(** X8: when the request names are in lower case, as Node delivers them,
    the meta-headers only add to the set: an entry the first loop forwards
    is in the result with the same value. *)
Theorem getHttpHeaders_meta_only_adds (req : request) (key v : string) :
  lowercase_names (req_headers req) →
  map_fold forward_step ∅ (req_headers req) !! key = Some v →
  getHttpHeaders JSON_parse req !! key = Some v.
Proof.
  intros Hlower Hloop.
  destruct (forward_loop_kept _ ∅ _ _ Hlower Hloop) as (hv & Hkey & ->).
  unfold getHttpHeaders.
  by apply custom_auth_headers_keeps, custom_auth_header_keeps.
Qed.

(** X9: a header named by the legacy meta-header [x-custom-auth-header] and
    present in the request is forwarded under the name as the client spelled
    it, with its last value, whatever [x-custom-auth-headers] holds. *)
Theorem getHttpHeaders_forwards_custom_header (req : request)
    (name : string) (hv : header_value) :
  req_headers req !! "x-custom-auth-header" = Some (HStr name) →
  req_headers req !! JS.toLowerCase name = Some hv →
  getHttpHeaders JSON_parse req !! name = Some (last_value hv).
Proof.
  intros Hmeta Hname. unfold getHttpHeaders.
  apply custom_auth_headers_keeps; [done|].
  unfold custom_auth_header. rewrite Hmeta, Hname. apply lookup_insert_eq.
Qed.

(** X10: when [x-custom-auth-headers] parses to a list of strings, every
    listed name whose lower-cased form is a header of the request is
    forwarded under the listed spelling with the last value of that header. *)
Theorem getHttpHeaders_forwards_listed_headers (req : request)
    (raw : header_value) (names : list string) (name : string)
    (hv : header_value) :
  req_headers req !! "x-custom-auth-headers" = Some raw →
  JSON_parse (value_to_string raw) = Some (JArray (JString <$> names)) →
  name ∈ names →
  req_headers req !! JS.toLowerCase name = Some hv →
  getHttpHeaders JSON_parse req !! name = Some (last_value hv).
Proof.
  intros Hraw Hparse Hin Hname. unfold getHttpHeaders, custom_auth_headers.
  rewrite Hraw, Hparse. by apply custom_names_forEach_adds.
Qed.

End projection_more.

(** X11: in the list of [x-custom-auth-headers], the first entry that is
    not a string ends the processing: the names before it are handled, the
    entries after it are ignored, and the entries written so far stay. *)
Theorem custom_names_forEach_stops_at_non_string
    (reqh : gmap string header_value) (names : list string) (j : json)
    (rest : list json) (h : header_record) :
  is_JString j = false →
  custom_names_forEach reqh ((JString <$> names) ++ j :: rest) h
    = custom_names_forEach reqh (JString <$> names) h.
Proof.
  intros Hj. revert h. induction names as [|n names IH]; intros h.
  - by destruct j.
  - cbn. apply IH.
Qed.

Lemma lowercase_namesb_sound (reqh : gmap string header_value) :
  lowercase_namesb reqh = true → lowercase_names reqh.
Proof.
  unfold lowercase_namesb. rewrite forallb_forall.
  intros Hall key [hv Hkey]. apply String.eqb_eq, Hall.
  apply list_elem_of_In, list_elem_of_fmap. exists (key, hv).
  split; [done|]. by apply elem_of_map_to_list.
Qed.

Lemma getHttpHeaders_meta_only_adds_witness :
  getHttpHeaders parse_two_names request_two_custom !! "authorization"
    = Some "Bearer upstream".
Proof.
  apply (getHttpHeaders_meta_only_adds parse_two_names request_two_custom).
  - apply lowercase_namesb_sound. reflexivity.
  - reflexivity.
Defined.

Lemma getHttpHeaders_without_meta_witness :
  getHttpHeaders parse_two_names request_plain !! "authorization"
    = Some "Bearer upstream".
Proof.
  rewrite (getHttpHeaders_without_meta parse_two_names request_plain
             "authorization" eq_refl eq_refl).
  reflexivity.
Defined.

Lemma getHttpHeaders_values_from_request_witness :
  ∃ hv, (req_headers request_two_custom !! "X-Api-Key" = Some hv
         ∨ req_headers request_two_custom !! JS.toLowerCase "X-Api-Key" = Some hv)
        ∧ "k-123" = last_value hv.
Proof.
  apply (getHttpHeaders_values_from_request parse_two_names request_two_custom
           "X-Api-Key" "k-123").
  - intros raw customHeaderNames _ [= <-]. reflexivity.
  - reflexivity.
Defined.

Lemma getHttpHeaders_forwards_custom_header_witness :
  getHttpHeaders parse_two_names request_naming_session_id !! "Mcp-Session-Id"
    = Some "5f0c".
Proof.
  apply (getHttpHeaders_forwards_custom_header parse_two_names
           request_naming_session_id "Mcp-Session-Id" (HStr "5f0c"));
    reflexivity.
Defined.

Lemma getHttpHeaders_forwards_listed_headers_witness :
  getHttpHeaders parse_two_names request_two_custom !! "x-tenant"
    = Some "umbrella".
Proof.
  apply (getHttpHeaders_forwards_listed_headers parse_two_names
           request_two_custom (HStr "[X-Api-Key, x-tenant]")
           ["X-Api-Key"; "x-tenant"] "x-tenant" (HArr "acme" ["umbrella"]));
    [reflexivity | reflexivity | by right; left | reflexivity].
Defined.

Lemma custom_names_forEach_stops_at_non_string_witness :
  custom_names_forEach (req_headers request_two_custom)
    [JString "X-Api-Key"; JNull; JString "x-tenant"] ∅
  = custom_names_forEach (req_headers request_two_custom)
      [JString "X-Api-Key"] ∅.
Proof.
  apply (custom_names_forEach_stops_at_non_string
           (req_headers request_two_custom) ["X-Api-Key"] JNull
           [JString "x-tenant"] ∅).
  reflexivity.
Defined.

(** * Transport creation, the bag of a session and the session routes *)

Section session_facts.

Variable JSON_parse : string → option json.

Implicit Types (req : request) (st : proxy_state) (reg : registry).

Lemma bag_after_accept bag reqs a :
  bag !! "Accept" = Some a → a ≠ "" →
  bag_after JSON_parse bag reqs !! "Accept" = Some a.
Proof.
  revert bag. induction reqs as [|r reqs IH]; intros bag Ha Hne; [done|].
  cbn. apply IH; [|done].
  rewrite updateHeadersInPlace_lookup, Ha.
  destruct a; [done|]. by rewrite bool_decide_eq_true_2.
Qed.

Lemma bag_after_snoc bag reqs r :
  bag_after JSON_parse bag (reqs ++ [r])
    = updateHeadersInPlace (bag_after JSON_parse bag reqs)
        (getHttpHeaders JSON_parse r).
Proof. unfold bag_after. by rewrite foldl_app. Qed.

Lemma createTransport_holder transportType starts req kind bag :
  createTransport JSON_parse transportType starts req = Created kind (Some bag) →
  bag = <["Accept" := accept_of kind]> (getHttpHeaders JSON_parse req)
  ∧ (kind = SSEClient ∨ kind = StreamableHTTPClient).
Proof.
  unfold createTransport. destruct transportType as [t|]; [|done].
  destruct (String.eqb t "stdio"); [by destruct starts|].
  destruct (String.eqb t "sse"); [destruct starts; [|done]; intros [= <- <-]; auto|].
  destruct (String.eqb t "streamable-http"); [|done].
  destruct starts; [|done]. intros [= <- <-]. auto.
Qed.

(** In an observable state every session id is in both transport tables or
    in none of the three. *)
Lemma reachable_all_or_none reg :
  reachable reg → ∀ sid, registered sid reg ∨ absent sid reg.
Proof.
  induction 1 as [|reg reg' _ IH Hstep].
  - intros sid. right. by repeat split.
  - by eapply step_all_or_none.
Qed.

(** X12: the header holder [createTransport] builds for an SSE or a
    streamable-HTTP upstream holds the [Accept] text of its kind; after any
    number of later requests of the session that text is still the [Accept]
    of the bag, whatever those requests carry, and every other entry of the
    bag is what the latest request projects. *)
Theorem session_bag_accept_is_fixed (transportType : option string)
    (starts : bool) (req : request) (kind : transport_kind)
    (bag : header_record) (reqs : list request) (latest : request) :
  createTransport JSON_parse transportType starts req = Created kind (Some bag) →
  bag !! "Accept" = Some (accept_of kind)
  ∧ bag_after JSON_parse bag reqs !! "Accept" = Some (accept_of kind)
  ∧ ∀ k, k ≠ "Accept" →
      bag_after JSON_parse bag (reqs ++ [latest]) !! k
        = getHttpHeaders JSON_parse latest !! k.
Proof.
  intros Hcreated. apply createTransport_holder in Hcreated as [-> Hkind].
  assert (Haccept : (<["Accept" := accept_of kind]>
                       (getHttpHeaders JSON_parse req) : header_record)
                    !! "Accept" = Some (accept_of kind))
    by apply lookup_insert_eq.
  assert (Hne : accept_of kind ≠ "") by (by destruct Hkind as [-> | ->]).
  split; [done|]. split; [by apply bag_after_accept|].
  intros k Hk. rewrite bag_after_snoc, updateHeadersInPlace_lookup.
  destruct (bag_after JSON_parse _ reqs !! "Accept") as [a|]; [|done].
  rewrite (bool_decide_eq_false_2 _ Hk). by destruct (JS.truthy a).
Qed.

(** X13: a request handled for one session never writes the three tables,
    and the only header object it can change is the holder registered for
    that session id. *)
Theorem session_request_isolated (sessionId : option string) (req : request)
    (st : proxy_state) :
  let st' := (session_request JSON_parse sessionId req st).1 in
  tables st' = tables st
  ∧ ∀ holder,
      sessionId ≫= (sessionHeaderHolders (tables st) !!.) ≠ Some holder →
      holder_heap st' !! holder = holder_heap st !! holder.
Proof.
  unfold session_request.
  destruct (sessionId ≫= (sessionHeaderHolders (tables st) !!.)) as [h|];
    destruct (sessionId ≫= (webAppTransports (tables st) !!.));
    cbn; (split; [done|]); intros holder Hne; try done.
  all: unfold updateHolder; destruct (holder_heap st !! h); [|done];
    apply lookup_insert_ne; congruence.
Qed.

(** X14: in an observable state, a request for a session id that is not in
    the web-facing table is answered 404 by [GET /mcp], by [POST /mcp] and by
    [POST /message], and it changes nothing: no table and no header
    object. *)
Theorem session_routes_unknown_session (sid : string) (req : request)
    (st : proxy_state) :
  reachable (tables st) →
  webAppTransports (tables st) !! sid = None →
  post_message_handler JSON_parse (Some sid) req st = (st, Reply 404)
  ∧ (req_headers req !! "mcp-session-id" = Some (HStr sid) →
     get_mcp_handler JSON_parse req st = (st, Reply 404)
     ∧ (sid ≠ "" → post_mcp_handler JSON_parse req st = (st, Reply 404))).
Proof.
  intros Hreach Hweb.
  assert (Hcore : session_request JSON_parse (Some sid) req st = (st, Reply 404)).
  { unfold session_request. cbn.
    destruct (reachable_all_or_none _ Hreach sid) as [[[t Ht] _]|(_ & _ & Hh)];
      [congruence|].
    by rewrite Hh, Hweb. }
  split; [done|]. intros Hheader.
  unfold get_mcp_handler, post_mcp_handler. rewrite Hheader. cbn [session_key].
  split; [done|]. intros Hne. by destruct sid.
Qed.

End session_facts.

Lemma session_bag_accept_is_fixed_witness :
  bag_after parse_two_names
    (<["Accept" := "text/event-stream"]>
       (getHttpHeaders parse_two_names request_plain))
    [request_asking_json] !! "Accept"
  = Some "text/event-stream".
Proof.
  refine (proj1 (proj2 (session_bag_accept_is_fixed parse_two_names
            (Some "sse") true request_plain SSEClient _
            [request_asking_json] request_plain _))).
  reflexivity.
Defined.

Lemma session_routes_unknown_session_witness :
  post_message_handler parse_two_names (Some "0000") request_plain state_one_http
    = (state_one_http, Reply 404).
Proof.
  refine (proj1 (session_routes_unknown_session parse_two_names "0000"
                   request_plain state_one_http _ _)).
  - eapply reachable_step; [apply reachable_start | apply step_sse].
  - reflexivity.
Defined.

(** X15: in the environment of a spawned process a variable has the value
    of the request's [env] parameter when it sets one, else that of the
    proxy's own environment, else that of [MCP_ENV_VARS], else the SDK
    default. *)
Theorem stdio_env_precedence (sdk_default mcp_env_vars process_env
    queryEnv : header_record) (name : string) :
  stdio_env sdk_default mcp_env_vars process_env queryEnv !! name =
    match queryEnv !! name with
    | Some v => Some v
    | None =>
        match process_env !! name with
        | Some v => Some v
        | None =>
            match mcp_env_vars !! name with
            | Some v => Some v
            | None => sdk_default !! name
            end
        end
    end.
Proof.
  unfold stdio_env, defaultEnvironment, spread. cbn [foldl].
  rewrite !Object_assign_lookup, lookup_empty.
  repeat case_match; done.
Qed.

(** * Further properties of the tables and of [DELETE /mcp] *)

Section table_facts.

Implicit Types (reg : registry) (sid : string) (req : request).

Lemma registry_eq reg reg' :
  webAppTransports reg = webAppTransports reg' →
  serverTransports reg = serverTransports reg' →
  sessionHeaderHolders reg = sessionHeaderHolders reg' →
  reg = reg'.
Proof. destruct reg, reg'. cbn. by intros -> -> ->. Qed.

Lemma origin_outcome cfg req :
  originValidationMiddleware cfg req = Next
  ∨ originValidationMiddleware cfg req = Respond 403 "Forbidden - invalid origin".
Proof.
  unfold originValidationMiddleware.
  destruct (req_headers req !! "origin") as [[o|? ?]|]; [|by right|by left].
  destruct (_ && _); [by right | by left].
Qed.

Lemma auth_outcome cfg req :
  (authMiddleware cfg req).2 = Next
  ∨ (authMiddleware cfg req).2 = Respond 401 "Unauthorized".
Proof.
  pose proof (authMiddleware_never_throws cfg req) as Hthrows. revert Hthrows.
  unfold authMiddleware. destruct (authDisabled cfg); [by left|].
  destruct (authHeaderValue req) as [value|]; [|by right].
  destruct (_ || _); [by right|]. cbv zeta.
  destruct (negb _); [by right|].
  destruct (timingSafeEqual _ _) as [[]|]; [by left | by right | done].
Qed.

End table_facts.

(** X16: registering a session under an id that is in no table and then
    removing that id gives the tables back as they were, for a registration
    by [GET /stdio] as for one with or without a header holder. *)
Theorem register_then_remove (sid : string) (web server : transport)
    (headerHolder : option ref) (reg : registry) :
  absent sid reg →
  session_remove sid (session_register sid web server headerHolder reg) = reg
  ∧ session_remove sid (stdio_register sid web server reg) = reg.
Proof.
  intros (Hweb & Hserver & Hholder).
  split; apply registry_eq; unfold session_register; destruct headerHolder;
    cbn; rewrite ?delete_insert_eq; by apply delete_id.
Qed.

Lemma register_then_remove_witness :
  session_remove "5f0c" registry_one_http = empty_registry.
Proof.
  refine (proj1 (register_then_remove "5f0c" web_http upstream_http (Some 7)
                   empty_registry _)).
  repeat split.
Defined.

(** X17: removing a session id is idempotent, and removals of two ids can
    be made in either order. *)
Theorem session_remove_compose (a b : string) (reg : registry) :
  session_remove a (session_remove a reg) = session_remove a reg
  ∧ session_remove a (session_remove b reg)
    = session_remove b (session_remove a reg).
Proof.
  split; apply registry_eq; cbn;
    first [apply delete_delete_eq | apply delete_delete].
Qed.

(** X18: [DELETE /mcp] changes the tables only when it answers 200, and
    then it has removed exactly the id of the request, whose upstream
    transport is a streamable-HTTP one that accepted the termination; the
    only call it ever makes on a transport is [terminateSession] on such an
    upstream transport. *)
Theorem delete_mcp_handler_effects (terminate_ok : bool) (req : request)
    (reg : registry) :
  let result := delete_mcp_handler terminate_ok req reg in
  (response result ≠ Some 200 → after result = reg)
  ∧ (response result = Some 200 →
     terminate_ok = true
     ∧ ∃ sid server,
         req_headers req !! "mcp-session-id" = Some (HStr sid)
         ∧ serverTransports reg !! sid = Some server
         ∧ transport_kind_of server = StreamableHTTPClient
         ∧ after result = session_remove sid reg)
  ∧ (∀ c, c ∈ calls result →
     ∃ server, c = TerminateSession server
               ∧ transport_kind_of server = StreamableHTTPClient).
Proof.
  unfold delete_mcp_handler.
  destruct (req_headers req !! "mcp-session-id") as [[sid|? ?]|] eqn:Hreq;
    cbn; [|by repeat split; try done; intros c ?%not_elem_of_nil..].
  destruct (JS.truthy sid);
    [|by repeat split; try done; intros c ?%not_elem_of_nil].
  destruct (serverTransports reg !! sid) as [server|] eqn:Hserver;
    [|by repeat split; try done; intros c ?%not_elem_of_nil].
  destruct (transport_kind_of server) eqn:Hkind;
    try (by repeat split; try done; intros c ?%not_elem_of_nil).
  destruct terminate_ok; cbn.
  - split; [done|]. split; [intros _; split; [done|]; by exists sid, server|].
    intros c ->%list_elem_of_singleton. by exists server.
  - split; [done|]. split; [done|].
    intros c ->%list_elem_of_singleton. by exists server.
Qed.

(** X19: a session registered by [GET /stdio] with a child-process upstream
    cannot be ended through [DELETE /mcp]: the request is answered 500, no
    call is made on a transport and the session stays in the tables. *)
Theorem delete_mcp_keeps_stdio_session (terminate_ok : bool) (req : request)
    (sid : string) (web server : transport) (reg : registry) :
  req_headers req !! "mcp-session-id" = Some (HStr sid) →
  sid ≠ "" →
  transport_kind_of server = StdioClient →
  let reg' := stdio_register sid web server reg in
  delete_mcp_handler terminate_ok req reg'
    = {| after := reg'; calls := []; response := Some 500 |}
  ∧ registered sid reg'.
Proof.
  intros Hreq Hne Hkind reg'. split.
  - unfold delete_mcp_handler. rewrite Hreq.
    destruct sid; [done|]. cbn [JS.truthy].
    assert (Hserver : serverTransports reg' !! String a sid = Some server)
      by apply lookup_insert_eq.
    by rewrite Hserver, Hkind.
  - split; cbn; rewrite lookup_insert_eq; eauto.
Qed.

Lemma delete_mcp_keeps_stdio_session_witness :
  delete_mcp_handler true delete_request_stdio registry_one_stdio
    = {| after := registry_one_stdio; calls := []; response := Some 500 |}.
Proof.
  refine (proj1 (delete_mcp_keeps_stdio_session true delete_request_stdio
                   "a1b2" web_sse child_stdio empty_registry _ _ _)).
  - reflexivity.
  - discriminate.
  - reflexivity.
Defined.

(** X20: a [DELETE /mcp] request that the origin guard or the auth gate
    rejects has no effect: the tables are unchanged, no call is made on a
    transport, and the answer is the 403 of the guard or, when the guard
    passed, the 401 of the gate. *)
Theorem delete_mcp_rejected_has_no_effect (cfg : config) (terminate_ok : bool)
    (req : request) (reg : registry) :
  (run_chain cfg req [OriginValidation; Auth]).2 ≠ Next →
  after (delete_mcp cfg terminate_ok req reg) = reg
  ∧ calls (delete_mcp cfg terminate_ok req reg) = []
  ∧ response (delete_mcp cfg terminate_ok req reg)
    = Some match originValidationMiddleware cfg req with
           | Next => 401
           | _ => 403
           end.
Proof.
  unfold delete_mcp. cbn.
  destruct (origin_outcome cfg req) as [-> | ->]; [|done].
  destruct (auth_outcome cfg req) as [-> | ->]; done.
Qed.

Lemma delete_mcp_rejected_has_no_effect_witness :
  after (delete_mcp config_s3cret true delete_request_no_token registry_one_http)
    = registry_one_http.
Proof.
  refine (proj1 (delete_mcp_rejected_has_no_effect config_s3cret true
                   delete_request_no_token registry_one_http _)).
  vm_compute. discriminate.
Defined.

(** * The log readers *)

Section pagination_facts.

Context {A : Type}.

Implicit Types (l : list A).

(** A slice between two indices that are not negative. *)
Lemma js_slice_window l (start size : Z) :
  (0 ≤ start)%Z → (0 ≤ size)%Z →
  js_slice l start (start + size) = take (Z.to_nat size) (drop (Z.to_nat start) l).
Proof.
  intros Hstart Hsize. unfold js_slice.
  rewrite (proj2 (Z.ltb_ge start 0)), (proj2 (Z.ltb_ge (start + size) 0)) by lia.
  destruct (decide (Z.of_nat (length l) ≤ start)%Z) as [Hout|Hin].
  - rewrite !Z.min_r by lia. rewrite !drop_ge by lia. by rewrite !take_nil.
  - rewrite (Z.min_l start) by lia.
    destruct (decide (start + size ≤ Z.of_nat (length l))%Z) as [Hfit|Hover].
    + rewrite Z.min_l by lia. f_equal. lia.
    + rewrite Z.min_r by lia.
      rewrite !take_ge; [done | rewrite length_drop; lia..].
Qed.

(** Cutting a list into windows of [k] elements and gluing them gives the
    list back, when the windows reach its end. *)
Lemma windows_concat (k n : nat) l :
  (length l ≤ n * k)%nat →
  concat ((λ i, take k (drop (i * k) l)) <$> seq 0 n) = l.
Proof.
  revert l. induction n as [|n IH]; intros l Hlen.
  - destruct l; [done | cbn in Hlen; lia].
  - cbn [seq fmap list_fmap concat]. rewrite Nat.mul_0_l, drop_0.
    rewrite <- (take_drop k l) at 2. f_equal.
    rewrite <- (IH (drop k l)) by (rewrite length_drop; lia).
    f_equal. rewrite <- seq_shift, <- list_fmap_compose.
    apply list_fmap_ext. intros _ i _. cbn. by rewrite drop_drop.
Qed.

End pagination_facts.

Lemma ceil_div_bounds (a b : Z) :
  (0 < b)%Z → (a ≤ ceil_div a b * b < a + b)%Z.
Proof.
  intros Hb. unfold ceil_div.
  pose proof (Z.div_mod (- a) b ltac:(lia)).
  pose proof (Z.mod_pos_bound (- a) b Hb). nia.
Qed.

Lemma or_default_pos (n default : Z) : (1 ≤ n)%Z → or_default (Some n) default = n.
Proof.
  intros Hn. unfold or_default. by rewrite (proj2 (Z.eqb_neq n 0)) by lia.
Qed.

(** X21: for a limit of at least one that, added to the number of non-blank
    lines, stays within the safe integers, the pages [1 .. totalPages] of
    [GET /logs/:filename] hold at most [limit] lines each and, in order,
    exactly the non-blank lines of the file; for a page whose product with
    the limit is a safe integer, there is a next page exactly when lines
    remain after it. *)
Theorem logs_file_pages_partition (content : string) (limit : Z) :
  (1 ≤ limit)%Z →
  (limit + Z.of_nat (length (nonblank_lines content)) ≤ MAX_SAFE_INTEGER)%Z →
  let view page := logs_file_view content (Some page) (Some limit) in
  concat ((λ page, view_lines (view page))
            <$> pages_upto (view_totalPages (view 1%Z)))
    = nonblank_lines content
  ∧ ∀ page, (1 ≤ page)%Z → (page * limit ≤ MAX_SAFE_INTEGER)%Z →
      (length (view_lines (view page)) ≤ Z.to_nat limit)%nat
      ∧ (view_hasNext (view page) = true
         ↔ (page * limit < Z.of_nat (length (nonblank_lines content)))%Z).
Proof.
  intros Hlimit _ view.
  set (lines := nonblank_lines content).
  assert (Hlines : ∀ page, (1 ≤ page)%Z →
            view_lines (view page)
              = take (Z.to_nat limit)
                  (drop (Z.to_nat ((page - 1) * limit)) lines)).
  { intros page Hpage. unfold view, logs_file_view. cbn [view_lines].
    rewrite !or_default_pos by done. apply js_slice_window; nia. }
  assert (Htotal : ∀ page, view_totalPages (view page)
                           = ceil_div (Z.of_nat (length lines)) limit).
  { intros page. unfold view, logs_file_view. cbn [view_totalPages].
    by rewrite (or_default_pos limit) by done. }
  pose proof (ceil_div_bounds (Z.of_nat (length lines)) limit ltac:(lia)) as Hceil.
  split.
  - rewrite Htotal. unfold pages_upto. rewrite <- list_fmap_compose.
    rewrite <- (windows_concat (Z.to_nat limit)
                  (Z.to_nat (ceil_div (Z.of_nat (length lines)) limit)) lines)
      at 2 by nia.
    f_equal. apply list_fmap_ext. intros _ i _. unfold compose.
    rewrite Hlines by lia. do 2 f_equal. nia.
  - intros page Hpage _. split.
    + rewrite Hlines by done. rewrite length_take. lia.
    + unfold view at 1, logs_file_view. cbn [view_hasNext].
      rewrite !or_default_pos by done. fold lines.
      rewrite Z.ltb_lt. nia.
Qed.

Lemma logs_file_pages_partition_witness :
  concat ((λ page, view_lines (logs_file_view log_of_five (Some page) (Some 2%Z)))
            <$> pages_upto 3%Z)
    = nonblank_lines log_of_five.
Proof.
  apply (proj1 (logs_file_pages_partition log_of_five 2%Z ltac:(lia)
                  ltac:(by vm_compute))).
Defined.

(** X22: for a limit of at least one, [GET /logs/current] answers with the
    last [limit] non-blank lines of the file (all of them when there are
    fewer), whatever page is asked for; a negative limit gives no line. *)
Theorem logs_current_shows_last_lines (content : string) (page_q : option Z)
    (limit : Z) :
  ((1 ≤ limit)%Z →
   view_lines (logs_current_view content page_q (Some limit))
     = drop (length (nonblank_lines content) - Z.to_nat limit)
         (nonblank_lines content))
  ∧ ((limit < 0)%Z →
     view_lines (logs_current_view content page_q (Some limit)) = []).
Proof.
  set (lines := nonblank_lines content).
  split; intros Hlimit; unfold logs_current_view; cbn [view_lines]; fold lines;
    unfold or_default; rewrite (proj2 (Z.eqb_neq limit 0)) by lia;
    unfold js_slice.
  - rewrite (proj2 (Z.ltb_ge (Z.max 0 _) 0)), (proj2 (Z.ltb_ge (Z.of_nat _) 0))
      by lia.
    rewrite Z.min_id, Z.min_l by lia.
    rewrite take_ge by (rewrite length_drop; lia).
    f_equal. lia.
  - rewrite (proj2 (Z.ltb_ge (Z.max 0 _) 0)), (proj2 (Z.ltb_ge (Z.of_nat _) 0))
      by lia.
    rewrite drop_ge by lia. apply take_nil.
Qed.

Lemma logs_current_shows_last_lines_witness :
  view_lines (logs_current_view log_of_five (Some 3%Z) (Some 2%Z))
    = ["[t4] [INFO] four"; "[t5] [WARN] five"].
Proof.
  rewrite (proj1 (logs_current_shows_last_lines log_of_five (Some 3%Z) 2%Z)
             ltac:(lia)).
  reflexivity.
Defined.

(** * Further properties of the stderr classifier *)

Lemma upper_lower_char (c : ascii) :
  JS.upper_char (JS.lower_char c) = JS.upper_char c.
Proof. destruct c as [[] [] [] [] [] [] [] []]; reflexivity. Qed.

Lemma upper_upper_char (c : ascii) :
  JS.upper_char (JS.upper_char c) = JS.upper_char c.
Proof. destruct c as [[] [] [] [] [] [] [] []]; reflexivity. Qed.

Lemma toUpperCase_toLowerCase (s : string) :
  JS.toUpperCase (JS.toLowerCase s) = JS.toUpperCase s.
Proof.
  induction s as [|c s IH]; [done|].
  cbn. f_equal; [apply upper_lower_char | exact IH].
Qed.

Lemma toUpperCase_idemp (s : string) :
  JS.toUpperCase (JS.toUpperCase s) = JS.toUpperCase s.
Proof.
  induction s as [|c s IH]; [done|].
  cbn. f_equal; [apply upper_upper_char | exact IH].
Qed.

Lemma classify_level_by_upper (a b : string) :
  JS.toUpperCase a = JS.toUpperCase b → (classify a).1 = (classify b).1.
Proof.
  intros Heq. unfold classify. rewrite Heq.
  repeat (destruct (JS.includes (JS.toUpperCase b) _); [reflexivity|]).
  reflexivity.
Qed.

(** X23: the level the classifier assigns does not depend on letter case:
    two chunks that are equal once lower-cased get the same level, and so do
    a chunk and its upper-cased or lower-cased form. *)
Theorem classify_case_insensitive (a b : string) :
  JS.toLowerCase a = JS.toLowerCase b →
  (classify a).1 = (classify b).1
  ∧ (classify (JS.toUpperCase a)).1 = (classify a).1
  ∧ (classify (JS.toLowerCase a)).1 = (classify a).1.
Proof.
  intros Heq. split; [|split]; apply classify_level_by_upper.
  - by rewrite <- (toUpperCase_toLowerCase a), Heq, toUpperCase_toLowerCase.
  - apply toUpperCase_idemp.
  - apply toUpperCase_toLowerCase.
Qed.

Lemma classify_case_insensitive_witness :
  (classify "Warning: LOW disk").1 = (classify "WARNING: low DISK").1.
Proof.
  apply (classify_case_insensitive "Warning: LOW disk" "WARNING: low DISK").
  reflexivity.
Defined.

(** * The target of [GET /fetch-json] *)

Section split_facts.

Variable sep : ascii.

Lemma split_on_go_piece cur x s :
  free_of sep x = true →
  split_on_go sep cur (x +:+ s) = split_on_go sep (String.rev_app x cur) s.
Proof.
  revert cur. induction x as [|c x IH]; intros cur Hfree; [done|].
  cbn in Hfree. apply andb_true_iff in Hfree as [Hc Hfree].
  apply negb_true_iff in Hc. rewrite app_cons_string. cbn. rewrite Hc.
  by apply IH.
Qed.

(** Splitting what [join] built from pieces without the separator gives
    the pieces back. *)
Lemma split_on_join_with pieces :
  pieces ≠ [] →
  Forall (λ x, free_of sep x = true) pieces →
  split_on sep (join_with sep pieces) = pieces.
Proof.
  unfold split_on.
  induction pieces as [|x pieces IH]; intros Hne Hfree; [done|].
  apply Forall_cons in Hfree as [Hx Hfree].
  destruct pieces as [|y pieces].
  - cbn [join_with]. rewrite <- (app_empty_r x) at 1.
    rewrite split_on_go_piece by done. cbn. by rewrite rev_rev_app.
  - change (join_with sep (x :: y :: pieces))
      with (x +:+ String sep (join_with sep (y :: pieces))).
    rewrite split_on_go_piece by done. cbn [split_on_go].
    rewrite Ascii.eqb_refl, rev_rev_app. f_equal. by apply IH.
Qed.

End split_facts.

Lemma filter_truthy_all (parts : list string) :
  Forall (λ x, x ≠ "") parts → List.filter JS.truthy parts = parts.
Proof.
  induction 1 as [|x parts Hx _ IH]; [done|].
  cbn. destruct x; [done|]. cbn. by rewrite IH.
Qed.

Lemma filter_truthy_empty (parts : list string) :
  List.filter JS.truthy ("" :: parts) = List.filter JS.truthy parts.
Proof. reflexivity. Qed.

Lemma starts_with_app (prefix rest : string) :
  JS.startsWith (prefix +:+ rest) prefix = true.
Proof.
  unfold JS.startsWith. induction prefix as [|c prefix IH]; [by destruct rest|].
  rewrite app_cons_string. cbn. by destruct (ascii_dec c c).
Qed.

Lemma gist_raw_target parts target :
  gist_raw parts = Some target →
  JS.startsWith target "https://gist.githubusercontent.com/" = true.
Proof.
  unfold gist_raw. destruct (Nat.leb 2 (length parts)); [|done].
  intros [= <-]. apply starts_with_app.
Qed.

Lemma github_raw_target parts target :
  github_raw parts = Some target →
  JS.startsWith target "https://raw.githubusercontent.com/" = true.
Proof.
  unfold github_raw. destruct (indexOf "blob" parts) as [blobIndex|]; [|done].
  destruct (Nat.ltb (blobIndex + 1) (length parts)); [|done].
  intros [= <-]. apply starts_with_app.
Qed.

(** X24: the block lets only [http:] and [https:] URLs through, and it
    rewrites a URL only when its host is [gist.github.com] or [github.com];
    the rewritten target is then on [gist.githubusercontent.com] or on
    [raw.githubusercontent.com], over https. *)
Theorem safeUrl_targets (u : parsed_url) :
  (safeUrl (Some u) ≠ SafeThrows ↔
     url_protocol u = "http:" ∨ url_protocol u = "https:")
  ∧ ∀ target, safeUrl (Some u) = SafeRewritten target →
      (JS.toLowerCase (url_hostname u) = "gist.github.com"
       ∧ JS.startsWith target "https://gist.githubusercontent.com/" = true)
      ∨ (JS.toLowerCase (url_hostname u) = "github.com"
         ∧ JS.startsWith target "https://raw.githubusercontent.com/" = true).
Proof.
  unfold safeUrl.
  assert (Hprotocol :
    negb (String.eqb (url_protocol u) "http:"
          || String.eqb (url_protocol u) "https:") = false
    ↔ url_protocol u = "http:" ∨ url_protocol u = "https:").
  { rewrite negb_false_iff, orb_true_iff, !String.eqb_eq. done. }
  destruct (negb _) eqn:Hneg.
  { split; [|done]. split; [done|]. intros H. apply Hprotocol in H. done. }
  split.
  { split; [intros _; by apply Hprotocol|]. intros _.
    destruct (if String.eqb _ "gist.github.com" then _ else _); [done|].
    by destruct (if String.eqb _ "github.com" then _ else _). }
  intros target.
  destruct (String.eqb_spec (JS.toLowerCase (url_hostname u)) "gist.github.com")
    as [Hg|Hg].
  - destruct (gist_raw _) as [t|] eqn:Hgist.
    + intros [= <-]. left. split; [done|]. by eapply gist_raw_target.
    + destruct (String.eqb_spec (JS.toLowerCase (url_hostname u)) "github.com")
        as [Hh|Hh]; [congruence | done].
  - destruct (String.eqb_spec (JS.toLowerCase (url_hostname u)) "github.com")
      as [Hh|Hh]; [|done].
    destruct (github_raw _) as [t|] eqn:Hraw; [|done].
    intros [= <-]. right. split; [done|]. by eapply github_raw_target.
Qed.

(** X25: the page of a file on GitHub,
    [/<user>/<repo>/blob/<branch>/<path>], is rewritten to the raw URL
    [https://raw.githubusercontent.com/<user>/<repo>/<branch>/<path>], for
    non-empty path segments without a slash and a user and a repository not
    called [blob]. *)
Theorem safeUrl_github_blob (protocol user repo branch : string)
    (path : list string) :
  protocol = "http:" ∨ protocol = "https:" →
  Forall (λ x, x ≠ "" ∧ free_of "/"%char x = true)
    (user :: repo :: branch :: path) →
  user ≠ "blob" → repo ≠ "blob" →
  safeUrl (Some {| url_protocol := protocol;
                   url_hostname := "github.com";
                   url_pathname := blob_pathname user repo branch path |})
  = SafeRewritten
      ("https://raw.githubusercontent.com/" +:+ user +:+ "/" +:+ repo
       +:+ "/" +:+ branch +:+ "/" +:+ join_with "/"%char path).
Proof.
  intros Hprotocol Hsegments Huser Hrepo.
  apply Forall_cons in Hsegments as [[Hu Hfu] Hsegments].
  apply Forall_cons in Hsegments as [[Hr Hfr] Hsegments].
  apply Forall_cons in Hsegments as [[Hb Hfb] Hpath].
  assert (Hparts : path_parts (blob_pathname user repo branch path)
                   = user :: repo :: "blob" :: branch :: path).
  { unfold path_parts, blob_pathname.
    change (String "/"%char (join_with "/"%char
              (user :: repo :: "blob" :: branch :: path)))
      with (join_with "/"%char ("" :: user :: repo :: "blob" :: branch :: path)).
    rewrite split_on_join_with; [|done|].
    - rewrite filter_truthy_empty. apply filter_truthy_all.
      repeat (apply Forall_cons; split; [done|]).
      eapply Forall_impl; [exact Hpath|]. by intros x [? _].
    - repeat (apply Forall_cons; split; [done|]).
      eapply Forall_impl; [exact Hpath|]. by intros x [_ ?]. }
  unfold safeUrl. cbn [url_protocol url_hostname url_pathname].
  assert (Hok : negb (String.eqb protocol "http:" || String.eqb protocol "https:")
                = false) by (by destruct Hprotocol as [-> | ->]).
  rewrite Hok, Hparts.
  change (String.eqb (JS.toLowerCase "github.com") "gist.github.com") with false.
  change (String.eqb (JS.toLowerCase "github.com") "github.com") with true.
  cbn iota. unfold github_raw. cbn [indexOf].
  rewrite (proj2 (String.eqb_neq user "blob")) by done.
  rewrite (proj2 (String.eqb_neq repo "blob")) by done.
  reflexivity.
Qed.

Lemma safeUrl_github_blob_witness :
  safeUrl (Some url_readme_page)
  = SafeRewritten
      "https://raw.githubusercontent.com/octo/tools/main/docs/servers.json".
Proof.
  apply (safeUrl_github_blob "https:" "octo" "tools" "main"
           ["docs"; "servers.json"]).
  - by right.
  - repeat constructor; discriminate.
  - discriminate.
  - discriminate.
Defined.

(** * The list of log files and the text of a notification *)

(** X26: when the logs directory can be read, [getAvailableLogFiles]
    returns exactly the entries whose name ends in [.log], each as often as
    it is listed, in descending order of their names (for the dated names
    [server-YYYY-MM-DD.log] the most recent first). *)
Theorem getAvailableLogFiles_sorted (files : list string) :
  ∃ result,
    getAvailableLogFiles (Some files) = Some result
    ∧ StronglySorted (flip String.le) result
    ∧ result ≡ₚ List.filter (λ file, endsWith file ".log") files
    ∧ ∀ file, file ∈ result ↔ file ∈ files ∧ endsWith file ".log" = true.
Proof.
  eexists. split; [reflexivity|].
  assert (Hperm : reverse (merge_sort String.le
                    (List.filter (λ file, endsWith file ".log") files))
                  ≡ₚ List.filter (λ file, endsWith file ".log") files).
  { rewrite reverse_Permutation. apply merge_sort_Permutation. }
  split; [|split; [done|]].
  - apply Sorted_StronglySorted; [apply _|].
    apply Sorted_reverse, Sorted_merge_sort; apply _.
  - intros file. rewrite Hperm, list_elem_of_In, filter_In.
    by rewrite <- list_elem_of_In.
Qed.

Section trim_facts.

Implicit Types (s w t : string).

Lemma rev_app_app s y z :
  String.rev_app s (y +:+ z) = String.rev_app s y +:+ z.
Proof.
  revert y. induction s as [|c s IH]; intros y; [done|].
  cbn. by rewrite <- IH.
Qed.

Lemma rev_app_append w t z :
  String.rev_app (w +:+ t) z = String.rev_app t (String.rev_app w z).
Proof.
  revert z. induction w as [|c w IH]; intros z; [done|].
  rewrite app_cons_string. cbn. apply IH.
Qed.

Lemma rev_append w t : String.rev (w +:+ t) = String.rev t +:+ String.rev w.
Proof.
  unfold String.rev. rewrite rev_app_append.
  change (String.rev_app w "") with ("" +:+ String.rev_app w "") at 1.
  apply rev_app_app.
Qed.

Lemma rev_rev s : String.rev (String.rev s) = s.
Proof. apply rev_rev_app. Qed.

Lemma trimStart_suffix s : ∃ w, s = w +:+ JS.trimStart s.
Proof.
  induction s as [|c s [w Hw]]; [by exists ""|].
  cbn. destruct (Ascii.is_space c).
  - exists (String c w). rewrite app_cons_string. by f_equal.
  - by exists "".
Qed.

Lemma trimStart_clean s : starts_with_space (JS.trimStart s) = false.
Proof.
  induction s as [|c s IH]; [done|].
  cbn. destruct (Ascii.is_space c) eqn:Hc; [done|]. by cbn.
Qed.

(** The trimmed text has no white space at either end. *)
Lemma trim_clean s :
  starts_with_space (JS.trim s) = false ∧ ends_with_space (JS.trim s) = false.
Proof.
  unfold JS.trim, ends_with_space. rewrite rev_rev. split; [|apply trimStart_clean].
  destruct (trimStart_suffix (String.rev (JS.trimStart s))) as [w Hw].
  pose proof (trimStart_clean s) as Hclean.
  rewrite <- (rev_rev (JS.trimStart s)), Hw, rev_append in Hclean.
  destruct (String.rev (JS.trimStart (String.rev (JS.trimStart s)))); [done|].
  by rewrite app_cons_string in Hclean.
Qed.

End trim_facts.

(** X27: the message of the notification sent for a chunk never starts or
    ends with white space: it is the trimmed chunk or one of the three fixed
    texts. *)
Theorem classify_message_trimmed (chunk : string) :
  starts_with_space (classify chunk).2 = false
  ∧ ends_with_space (classify chunk).2 = false.
Proof.
  unfold classify.
  repeat (destruct (JS.includes (JS.toUpperCase chunk) _);
          [first [apply trim_clean | by vm_compute]|]).
  apply trim_clean.
Qed.

(** * The ways the auth gate can end *)

(** X28: the gate only ever calls [next()] or answers 401 Unauthorized: the
    exception of [timingSafeEqual] on buffers of different lengths cannot
    occur, because the call is made only after the lengths were compared and
    found equal. *)
Theorem authMiddleware_outcomes (cfg : config) (req : request) :
  ((authMiddleware cfg req).2 = Next
   ∨ (authMiddleware cfg req).2 = Respond 401 "Unauthorized")
  ∧ ∀ size, OpTimingSafeEqual size ∈ (authMiddleware cfg req).1 →
      (authMiddleware cfg req).1
        = [OpCompareLengths size size; OpTimingSafeEqual size].
Proof.
  split; [apply auth_outcome|].
  unfold authMiddleware. destruct (authDisabled cfg).
  { intros size Hin. by apply not_elem_of_nil in Hin. }
  destruct (authHeaderValue req) as [value|].
  2: { intros size Hin. by apply not_elem_of_nil in Hin. }
  destruct (_ || _).
  { intros size Hin. by apply not_elem_of_nil in Hin. }
  cbv zeta.
  destruct (Nat.eqb_spec (length (Buffer_from (JS.substring_from 7 value)))
              (length (Buffer_from (sessionToken cfg)))) as [Hlen|Hlen];
    cbn [negb].
  - rewrite <- Hlen. intros size Hin.
    assert (Hsize : size = length (Buffer_from (JS.substring_from 7 value))).
    { destruct (timingSafeEqual _ _) as [[]|]; cbn [fst] in Hin;
        apply elem_of_cons in Hin as [Hin|Hin]; try done;
        apply list_elem_of_singleton in Hin; congruence. }
    subst size. by destruct (timingSafeEqual _ _) as [[]|].
  - intros size Hin. cbn [fst] in Hin.
    apply list_elem_of_singleton in Hin. done.
Qed.
